(** * Request coalescing and distributed locking in article-materials

    A shallow embedding of [singleflight/main.go]: the generic single-flight
    wrapper [ProccesWrapper], the cache read [getProductFromCache] built on
    it, and the lock-protected [AddToBankAccountWithMutex].

    The Go code is written against three collaborators that live outside the
    repository: [golang.org/x/sync/singleflight] (the [Group]), the Redis
    client and [go-redsync].  Their operations are modelled from the
    specification's description of them; everything else follows the source
    text of [main.go]. *)

From stdpp Require Import gmap strings list fin_maps pretty.
From Stdlib Require Import ZArith Ascii.

Open Scope string_scope.
Open Scope list_scope.
Open Scope nat_scope.

(** ** Go errors

    A Go [error] is an interface value; [option error] is a possibly nil
    error.  The constructors are the error values this program can see. *)

Inductive error : Type :=
| redis_Nil                                  (* the sentinel redis.Nil *)
| fundamental (msg : string)                 (* errors.New(msg) *)
| withMessage (cause : error) (msg : string) (* errors.Wrap(cause, msg) *)
| foreign (msg : string).                    (* any other error of a collaborator *)

Global Instance error_eq_dec : EqDecision error.
Proof. solve_decision. Defined.

Definition errors_New (msg : string) : error := fundamental msg.

(** [errors.Wrap] returns nil when given nil. *)
Definition errors_Wrap (err : option error) (msg : string) : option error :=
  match err with
  | None => None
  | Some e => Some (withMessage e msg)
  end.

(** [errors.Is] follows the chain of causes. *)
Fixpoint errors_Is (err target : error) : bool :=
  if decide (err = target) then true
  else match err with
       | withMessage cause _ => errors_Is cause target
       | _ => false
       end.

(** The [Error()] method. *)
Fixpoint Error (e : error) : string :=
  match e with
  | redis_Nil => "redis: nil"
  | fundamental msg => msg
  | withMessage cause msg => msg +:+ ": " +:+ Error cause
  | foreign msg => msg
  end.

(** ** Go values behind [interface{}]

    [Product] is the struct of main.go; a [*Product] is [option Product]
    ([None] is the nil pointer). *)

Record Product : Type := mkProduct { ID : Z; Name : string }.

Global Instance Product_eq_dec : EqDecision Product.
Proof. solve_decision. Defined.

(** A non-nil interface value: a dynamic type together with a value of it. *)
Inductive dyn : Type :=
| DInt (n : Z)
| DString (s : string)
| DPtrProduct (p : option Product)
| DErr (e : error).

Global Instance dyn_eq_dec : EqDecision dyn.
Proof. solve_decision. Defined.

(** An [interface{}]: nil, or a dynamic value. *)
Abbreviation iface := (option dyn).

(** The type arguments [T] considered for [Singleflight[T]]: three concrete
    types and two interface types ([error] and [any]). *)
Inductive gotype : Type := TInt | TString | TPtrProduct | TError | TAny.

Global Instance gotype_eq_dec : EqDecision gotype.
Proof. solve_decision. Defined.

Definition is_interface (T : gotype) : bool :=
  match T with
  | TError | TAny => true
  | _ => false
  end.

(** Values of static type [T]. *)
Definition denote (T : gotype) : Type :=
  match T with
  | TInt => Z
  | TString => string
  | TPtrProduct => option Product
  | TError => option error
  | TAny => iface
  end.

(** [*new(T)]. *)
Definition zero (T : gotype) : denote T :=
  match T with
  | TInt => 0%Z
  | TString => ""
  | TPtrProduct => None
  | TError => None
  | TAny => None
  end.

(** Conversion of a [T] to [interface{}], as [return fn()] does inside
    [wrapperFn].  A value of concrete type is boxed with its type, also
    when it is a nil pointer; a nil value of interface type stays the nil
    interface. *)
Definition box (T : gotype) : denote T → iface :=
  match T with
  | TInt => λ n, Some (DInt n)
  | TString => λ s, Some (DString s)
  | TPtrProduct => λ p, Some (DPtrProduct p)
  | TError => λ e, DErr <$> e
  | TAny => λ x, x
  end.

(** The comma-ok type assertion [res.(T)].  It fails on the nil interface
    for every [T]; for a concrete [T] it succeeds when the dynamic type is
    [T], for an interface [T] when the dynamic type implements it. *)
Definition type_assert (T : gotype) (res : iface) : option (denote T) :=
  match res with
  | None => None
  | Some d =>
      match T, d with
      | TInt, DInt n => Some n
      | TString, DString s => Some s
      | TPtrProduct, DPtrProduct p => Some p
      | TError, DErr e => Some (Some e)
      | TAny, d => Some (Some d)
      | _, _ => None
      end
  end.

(** ** The Redis client

    The store is a key-value map.  [conn_err] is a transport failure the
    client currently reports; [cmds] records every command sent, and
    [stdout] what the program printed. *)

Inductive cmd : Type :=
| GET (key : string)
| SET (key val : string)
| DEL (key : string).

Global Instance cmd_eq_dec : EqDecision cmd.
Proof. solve_decision. Defined.

Record World : Type := mkWorld {
  kv : gmap string string;
  conn_err : option error;
  cmds : list cmd;
  stdout : list string
}.

Definition sent (c : cmd) (w : World) : World :=
  mkWorld (kv w) (conn_err w) (cmds w ++ [c]) (stdout w).

(** [rdb.Get(ctx, key).Result()] *)
Definition rdb_Get (key : string) (w : World) : string * option error * World :=
  match conn_err w with
  | Some e => ("", Some e, sent (GET key) w)
  | None =>
      match kv w !! key with
      | Some val => (val, None, sent (GET key) w)
      | None => ("", Some redis_Nil, sent (GET key) w)
      end
  end.

(** [rdb.Set(ctx, key, val, 0).Err()] *)
Definition rdb_Set (key val : string) (w : World) : option error * World :=
  match conn_err w with
  | Some e => (Some e, sent (SET key val) w)
  | None =>
      (None, mkWorld (<[key := val]> (kv w)) (conn_err w)
                     (cmds w ++ [SET key val]) (stdout w))
  end.

Definition fmt_Println (msg : string) (w : World) : World :=
  mkWorld (kv w) (conn_err w) (cmds w) (stdout w ++ [msg]).

(** ** Programs over a single-flight group

    Code that calls into the [Group] is a tree of group operations: the
    two methods the repository uses, [Do] and [Forget].  The work function
    handed to [Do] acts on the Redis [World]. *)

Definition work := World → iface * option error * World.

Inductive prog (R : Type) : Type :=
| Ret (r : R)
| Group_Forget (key : string) (k : prog R)
| Group_Do (key : string) (fn : work) (k : iface * option error * bool → prog R).

Arguments Ret {R} r.
Arguments Group_Forget {R} key k.
Arguments Group_Do {R} key fn k.

Fixpoint prog_bind {A B : Type} (f : A → prog B) (p : prog A) : prog B :=
  match p with
  | Ret r => f r
  | Group_Forget key k => Group_Forget key (prog_bind f k)
  | Group_Do key fn k => Group_Do key fn (λ r, prog_bind f (k r))
  end.

Global Instance prog_mret : MRet prog := λ _ r, Ret r.
Global Instance prog_mbind : MBind prog := λ _ _ f p, prog_bind f p.

(** ** main.go, lines 21-47: [Singleflight[T]]

    The [Group] field points at the one group of the system, which the
    semantics below keeps in its state; the struct keeps the key. *)

Record Singleflight : Type := mkSingleflight { Key : string }.

(** Lines 27-29: [wrapperFn] runs [fn] and converts its value to
    [interface{}]. *)
Definition wrapperFn (T : gotype) (fn : World → denote T * option error * World)
    : work :=
  λ w, let '(v, err, w') := fn w in (box T v, err, w').

(** Lines 33-40: what [ProccesWrapper] does with the triple [Group.Do]
    returned. *)
Definition ProccesWrapper_ret (T : gotype) (r : iface * option error * bool)
    : prog (denote T * option error) :=
  let '(res, err, _) := r in
  match type_assert T res with
  | Some result => Ret (result, err)
  | None =>
      let err := Some (errors_New "unexpected type assertion failure") in
      Ret (zero T, err)
  end.

Definition ProccesWrapper (T : gotype) (single : Singleflight)
    (fn : World → denote T * option error * World)
    : prog (denote T * option error) :=
  Group_Do (Key single) (wrapperFn T fn) (ProccesWrapper_ret T).

(** A program whose [Do] has returned [r]. *)
Definition after_Do {R : Type} (p : prog R) (r : iface * option error * bool)
    : prog R :=
  match p with
  | Group_Do _ _ k => k r
  | _ => p
  end.

(** Lines 43-47. *)
Fixpoint Forget (single : Singleflight) (keys : list string) : prog unit :=
  match keys with
  | [] => Ret tt
  | key :: keys => Group_Forget key (Forget single keys)
  end.

(** ** main.go, lines 49-86: [getProductFromCache] *)

Section GetProduct.

(** [json.Unmarshal] into a [Product] belongs to Go's standard library;
    the decoder is a parameter. *)
Variable json_Unmarshal : string → Product + error.

(** Lines 61-79: the closure handed to [ProccesWrapper]. *)
Definition getProductFromCache_fn (productID : Z) (w : World)
    : option Product * option error * World :=
  let '(val, err, w) := rdb_Get ("product:" +:+ pretty productID) w in
  match err with
  | Some e =>
      if errors_Is e redis_Nil then (None, None, w)
      else
        let msg := "Error: " +:+ Error e in
        (None, Some e, fmt_Println msg w)
  | None =>
      match json_Unmarshal val with
      | inr e => (None, errors_Wrap (Some e) "Failed to unmarshal product", w)
      | inl product => (Some product, None, w)
      end
  end.

Definition getProductFromCache (productID currIdx : Z)
    : prog (option Product * option error) :=
  let singleflightInstance :=
    mkSingleflight ("singleflight:product:" +:+ pretty productID) in
  (if (currIdx =? 2)%Z
   then Forget singleflightInstance
          ["singleflight:product:" +:+ pretty productID]
   else Ret tt) ≫= λ _,
  '(res, err) ← ProccesWrapper TPtrProduct singleflightInstance
                  (getProductFromCache_fn productID);
  match err with
  | Some e => Ret (None, errors_Wrap (Some e) "Failed to get product from cache")
  | None => Ret (res, None)
  end.

End GetProduct.

(** ** The single-flight group

    [singleflight.Group] of golang.org/x/sync is not in the repository.
    Following sections 3, 4.1 and 5 of the specification, the group is a
    registry from keys to in-flight Calls, changed in atomic steps: [Do]
    looks a key up and either registers a new Call or joins the registered
    one; the Call's one execution stores its result, signals completion
    and deregisters the Call in one step; [Forget] deregisters whatever is
    registered for a key. *)

(** Modelled from the spec: the Call of section 3, which is part of
    [singleflight.Group]: the shared result, the completion signal and the
    count of waiters that joined. *)
Record call : Type := mkCall {
  c_val : iface;
  c_err : option error;
  c_done : bool;      (* the completion signal has fired *)
  c_dups : nat        (* waiters that joined *)
}.

(** The history of group operations, kept to state what happened. *)
Inductive event : Type :=
| EvForget (key : string)
| EvStart (key : string) (c : nat)   (* Do registered Call c *)
| EvJoin (key : string) (c : nat)    (* Do joined Call c *)
| EvExec (key : string) (c : nat).   (* the work function of Call c ran *)

Global Instance event_eq_dec : EqDecision event.
Proof. solve_decision. Defined.

(** Modelled from the spec: the registry of [singleflight.Group] (section
    3) with the Calls ever created, a Call being named by its position;
    with it, the rest of the state the goroutines share: the Redis world
    and the history of group operations. *)
Record sys : Type := mkSys {
  registry : gmap string nat;
  calls : list call;
  world : World;
  events : list event
}.

(** Modelled from the spec: [Group.Forget] removes any registered Call for
    the key and leaves the Call itself, and so its waiters, alone. *)
Definition sys_forget (key : string) (s : sys) : sys :=
  mkSys (delete key (registry s)) (calls s) (world s)
        (events s ++ [EvForget key]).

Inductive entered : Type :=
| Started (c : nat)
| Joined (c : nat).

Definition add_dup (cl : call) : call :=
  mkCall (c_val cl) (c_err cl) (c_done cl) (S (c_dups cl)).

(** Modelled from the spec: the lookup-or-register step of [Group.Do],
    indivisible with respect to the other callers. *)
Definition sys_enter (key : string) (s : sys) : entered * sys :=
  match registry s !! key with
  | Some c =>
      (Joined c,
       mkSys (registry s) (alter add_dup c (calls s)) (world s)
             (events s ++ [EvJoin key c]))
  | None =>
      let c := length (calls s) in
      (Started c,
       mkSys (<[key := c]> (registry s)) (calls s ++ [mkCall None None false 0])
             (world s) (events s ++ [EvStart key c]))
  end.

(** Modelled from the spec: the execution of Call [c] inside [Group.Do]:
    run the work function, store its result, signal completion and
    deregister the Call if it is still the one registered for the key. *)
Definition sys_exec (key : string) (c : nat) (fn : work) (s : sys)
    : iface * option error * bool * sys :=
  let '(val, err, w) := fn (world s) in
  let dups := default 0 (c_dups <$> calls s !! c) in
  (val, err, bool_decide (0 < dups),
   mkSys (if decide (registry s !! key = Some c)
          then delete key (registry s) else registry s)
         (<[c := mkCall val err true dups]> (calls s)) w
         (events s ++ [EvExec key c])).

(** Modelled from the spec: what a waiter of Call [c] reads from
    [Group.Do] once the completion signal has fired. *)
Definition sys_wait (c : nat) (s : sys) : option (iface * option error * bool) :=
  match calls s !! c with
  | Some cl => if c_done cl then Some (c_val cl, c_err cl, true) else None
  | None => None
  end.

(** *** One goroutine on its own

    [run_seq] runs a program to its end as long as it does not have to wait
    for another goroutine: a [Do] that finds a Call registered suspends. *)

Inductive outcome (R : Type) : Type :=
| Returned (r : R)
| Suspended (c : nat) (k : iface * option error * bool → prog R).

Arguments Returned {R} r.
Arguments Suspended {R} c k.

Fixpoint run_seq {R : Type} (p : prog R) (s : sys) : outcome R * sys :=
  match p with
  | Ret r => (Returned r, s)
  | Group_Forget key k => run_seq k (sys_forget key s)
  | Group_Do key fn k =>
      match sys_enter key s with
      | (Joined c, s1) => (Suspended c k, s1)
      | (Started c, s1) =>
          let '(r, s2) := sys_exec key c fn s1 in
          run_seq (k r) s2
      end
  end.

(** *** Goroutines interleaved

    A goroutine is at the head of its program, or inside [Do]: executing
    the work function of the Call it registered, or waiting for the Call
    it joined. *)

Inductive tstate (R : Type) : Type :=
| Ready (p : prog R)
| Executing (key : string) (c : nat) (fn : work)
            (k : iface * option error * bool → prog R)
| Waiting (c : nat) (k : iface * option error * bool → prog R).

Arguments Ready {R} p.
Arguments Executing {R} key c fn k.
Arguments Waiting {R} c k.

Record msys (R : Type) : Type := mkMsys {
  shared : sys;
  threads : gmap nat (tstate R)
}.

Arguments mkMsys {R} shared threads.
Arguments shared {R} _.
Arguments threads {R} _.

(** One atomic step of goroutine [i]; [None] when it has returned, is
    blocked, or does not exist. *)
Definition step {R : Type} (i : nat) (ms : msys R) : option (msys R) :=
  match threads ms !! i with
  | Some (Ready (Ret _)) => None
  | Some (Ready (Group_Forget key k)) =>
      Some (mkMsys (sys_forget key (shared ms)) (<[i := Ready k]> (threads ms)))
  | Some (Ready (Group_Do key fn k)) =>
      match sys_enter key (shared ms) with
      | (Joined c, s1) => Some (mkMsys s1 (<[i := Waiting c k]> (threads ms)))
      | (Started c, s1) =>
          Some (mkMsys s1 (<[i := Executing key c fn k]> (threads ms)))
      end
  | Some (Executing key c fn k) =>
      let '(r, s2) := sys_exec key c fn (shared ms) in
      Some (mkMsys s2 (<[i := Ready (k r)]> (threads ms)))
  | Some (Waiting c k) =>
      match sys_wait c (shared ms) with
      | Some r => Some (mkMsys (shared ms) (<[i := Ready (k r)]> (threads ms)))
      | None => None
      end
  | None => None
  end.

(** A schedule names the goroutine that moves at each step. *)
Fixpoint run {R : Type} (sched : list nat) (ms : msys R) : option (msys R) :=
  match sched with
  | [] => Some ms
  | i :: sched =>
      match step i ms with
      | Some ms' => run sched ms'
      | None => None
      end
  end.

(** The executions of work functions under [key] recorded in a history. *)
Definition is_exec (key : string) (e : event) : bool :=
  match e with
  | EvExec key' _ => bool_decide (key' = key)
  | _ => false
  end.

Definition exec_count (key : string) (evs : list event) : nat :=
  length (filter (λ e, is_exec key e = true) evs).

(** The calls of [Do] (registering or joining) recorded in a history. *)
Definition is_do (key : string) (e : event) : bool :=
  match e with
  | EvStart key' _ | EvJoin key' _ => bool_decide (key' = key)
  | _ => false
  end.

Definition do_count (key : string) (evs : list event) : nat :=
  length (filter (λ e, is_do key e = true) evs).

Definition returned {R : Type} (t : tstate R) : option R :=
  match t with
  | Ready (Ret r) => Some r
  | _ => None
  end.

Definition empty_world : World := mkWorld ∅ None [] [].
Definition empty_sys : sys := mkSys ∅ [] empty_world [].

(** A decoder for the examples below.  It accepts the one document that
    [main] stores (the JSON object with ID 1 and Name Product 1) and
    rejects every other input.  [dq] is the double quote character. *)
Definition dq : string := String "034"%char "".

Definition product1_json : string :=
  "{" +:+ dq +:+ "ID" +:+ dq +:+ ":1," +:+ dq +:+ "Name" +:+ dq +:+ ":"
      +:+ dq +:+ "Product 1" +:+ dq +:+ "}".

Definition sample_Unmarshal (raw : string) : Product + error :=
  if decide (raw = product1_json) then inl (mkProduct 1 "Product 1")
  else inr (foreign "invalid character looking for beginning of value").

(** The state [main] reaches before it starts its goroutines (lines
    89-117): it has printed its greeting and stored the product; nothing
    is in flight. *)
Definition warm_world : World :=
  (rdb_Set "product:1" product1_json
     (fmt_Println "Connected to Redis" empty_world)).2.

Definition warm_sys : sys := mkSys ∅ [] warm_world [].

(** The two keys [getProductFromCache] builds with [fmt.Sprintf]. *)
Definition product_flight_key (productID : Z) : string :=
  "singleflight:product:" +:+ pretty productID.

Definition product_cache_key (productID : Z) : string :=
  "product:" +:+ pretty productID.

(** The group as [ProccesWrapper] finds it in [getProductFromCache]: after
    the [Forget] of line 57 when [currIdx] is 2. *)
Definition after_forget (productID currIdx : Z) (s : sys) : sys :=
  if (currIdx =? 2)%Z then sys_forget (product_flight_key productID) s else s.

(** Lines 81-85 of main.go as a function of what [ProccesWrapper] returned. *)
Definition getProductFromCache_ret (r : option Product * option error)
    : option Product * option error :=
  match r.2 with
  | Some e => (None, errors_Wrap (Some e) "Failed to get product from cache")
  | None => (r.1, None)
  end.

Definition is_GET (c : cmd) : Prop :=
  match c with
  | GET _ => True
  | _ => False
  end.

Definition type_assertion_failure : error :=
  errors_New "unexpected type assertion failure".

(** What is left of [getProductFromCache] once the key has been forgotten. *)
Definition getProductFromCache_do (json_Unmarshal : string → Product + error)
    (productID : Z) : prog (option Product * option error) :=
  Group_Do (product_flight_key productID)
    (wrapperFn TPtrProduct (getProductFromCache_fn json_Unmarshal productID))
    (λ r, prog_bind
            (λ '(res, err),
               match err with
               | Some e =>
                   Ret (None, errors_Wrap (Some e) "Failed to get product from cache")
               | None => Ret (res, None)
               end)
            (ProccesWrapper_ret TPtrProduct r)).

(** ** Concurrent callers of [ProccesWrapper]

    A caller is a goroutine that calls [ProccesWrapper] on a
    [Singleflight[T]] of its own, as [getProductFromCache] builds one per
    call; the callers of one system share the group and the key but not
    necessarily [T].  What a caller got back is kept with its type. *)

Record caller : Type := mkCaller {
  caller_T : gotype;
  caller_fn : World → denote caller_T * option error * World
}.

Record reply : Type := mkReply {
  reply_T : gotype;
  reply_val : denote reply_T;
  reply_err : option error
}.

Definition call_ProccesWrapper (single : Singleflight) (c : caller) : prog reply :=
  '(v, err) ← ProccesWrapper (caller_T c) single (caller_fn c);
  Ret (mkReply (caller_T c) v err).

Definition goroutines (single : Singleflight) (cs : list caller)
    : gmap nat (tstate reply) :=
  map_seq 0 ((λ c, Ready (call_ProccesWrapper single c)) <$> cs).

(** The reply of [ProccesWrapper] to a caller of type [T] when [Do] handed
    it [(val, err)]. *)
Definition ProccesWrapper_reply (T : gotype) (val : iface) (err : option error)
    : reply :=
  match type_assert T val with
  | Some result => mkReply T result err
  | None => mkReply T (zero T) (Some type_assertion_failure)
  end.

Definition inside_Do {R : Type} (t : tstate R) : bool :=
  match t with
  | Executing _ _ _ _ | Waiting _ _ => true
  | Ready _ => false
  end.

Definition has_returned {R : Type} (t : tstate R) : bool :=
  match returned t with
  | Some _ => true
  | None => false
  end.

Definition all_threads {R : Type} (P : tstate R → bool) (ms : msys R) : bool :=
  forallb (λ it, P it.2) (map_to_list (threads ms)).

Definition reply_of {R : Type} (ms : msys R) (i : nat) : option R :=
  threads ms !! i ≫= returned.

(** A reply carries the pair [(val, err)] when its value, boxed, is [val]
    and its error is [err]. *)
Definition carries (val : iface) (err : option error) (r : reply) : Prop :=
  box (reply_T r) (reply_val r) = val ∧ reply_err r = err.

(** *** States of a group of callers of one key

    The callers are given by the work function and the continuation each
    hands to [Do]. *)

Abbreviation cont R := (iface * option error * bool → prog R).

Section CoalescingStates.

Context {R : Type}.
Variable key : string.
Variable callers : list (work * cont R).

Definition start_thread (c : work * cont R) : tstate R :=
  Ready (Group_Do key c.1 c.2).

Definition start_threads : gmap nat (tstate R) :=
  map_seq 0 (start_thread <$> callers).

(** Every caller has a goroutine in a state allowed by [P], and there
    are no other goroutines. *)
Definition covers (P : nat → work → cont R → tstate R → Prop)
    (ms : msys R) : Prop :=
  ∀ i, match callers !! i with
       | Some (fn, k) => ∃ t, threads ms !! i = Some t ∧ P i fn k t
       | None => threads ms !! i = None
       end.

Definition P_idle (i : nat) (fn : work) (k : cont R) (t : tstate R) : Prop :=
  t = Ready (Group_Do key fn k).

Definition P_flight (j c : nat) (i : nat) (fn : work) (k : cont R)
    (t : tstate R) : Prop :=
  if decide (i = j) then t = Executing key c fn k
  else t = Ready (Group_Do key fn k) ∨ t = Waiting c k.

Definition P_joined (j c : nat) (i : nat) (fn : work) (k : cont R)
    (t : tstate R) : Prop :=
  if decide (i = j) then t = Executing key c fn k else t = Waiting c k.

Definition P_done (j c : nat) (val : iface) (err : option error)
    (i : nat) (fn : work) (k : cont R) (t : tstate R) : Prop :=
  if decide (i = j) then ∃ sh, t = Ready (k (val, err, sh))
  else t = Waiting c k ∨ t = Ready (k (val, err, true)).

(** The round-robin schedule: caller 0 executes, the callers below [m]
    have joined, the others have not called [Do] yet. *)
Definition P_upto (m c : nat) (i : nat) (fn : work) (k : cont R)
    (t : tstate R) : Prop :=
  if decide (i = 0) then t = Executing key c fn k
  else if decide (i < m) then t = Waiting c k
  else t = Ready (Group_Do key fn k).

(** Caller 0 has completed Call [c]; the callers below [m] have been
    woken, the others still wait. *)
Definition P_woken (m c : nat) (val : iface) (err : option error)
    (i : nat) (fn : work) (k : cont R) (t : tstate R) : Prop :=
  if decide (i = 0) then ∃ sh, t = Ready (k (val, err, sh))
  else if decide (i < m) then t = Ready (k (val, err, true))
  else t = Waiting c k.

(** Call [c] exists and its completion signal has not fired. *)
Definition pending (c : nat) (s : sys) : Prop :=
  ∃ cl, calls s !! c = Some cl ∧ c_done cl = false.

(** Nobody has called [Do] yet. *)
Definition idle (ms : msys R) : Prop :=
  registry (shared ms) !! key = None ∧ covers P_idle ms.

(** Caller [j] registered Call [c] and has not run its work function;
    the others have joined [c] or have not called [Do] yet. *)
Definition flight (j c : nat) (ms : msys R) : Prop :=
  registry (shared ms) !! key = Some c ∧ pending c (shared ms) ∧
  covers (P_flight j c) ms.

(** As [flight], with every other caller waiting on [c]. *)
Definition joined (j c : nat) (ms : msys R) : Prop :=
  pending c (shared ms) ∧ covers (P_joined j c) ms.

(** Call [c] has completed with [(val, err)]; caller [j] has it, the
    others have it or still wait to be woken. *)
Definition completed (j c : nat) (val : iface) (err : option error)
    (ms : msys R) : Prop :=
  (∃ cl, calls (shared ms) !! c = Some cl ∧ c_done cl = true ∧
         c_val cl = val ∧ c_err cl = err) ∧
  covers (P_done j c val err) ms.

End CoalescingStates.

(** The work function and continuation [call_ProccesWrapper] hands to [Do]. *)
Definition Do_arguments (c : caller) : work * cont reply :=
  (wrapperFn (caller_T c) (caller_fn c),
   λ r, prog_bind (λ '(v, err), Ret (mkReply (caller_T c) v err))
                  (ProccesWrapper_ret (caller_T c) r)).

(** The claim of coalescing read literally: with all callers inside [Do]
    before the first completion, there is one execution, and the reply of
    every caller carries the pair which that execution stored in its Call. *)
Definition all_receive_stored_pair (single : Singleflight) (cs : list caller)
    (s0 : sys) (sched1 sched2 : list nat) : Prop :=
  ∀ ms1 ms2,
    run sched1 (mkMsys s0 (goroutines single cs)) = Some ms1 →
    exec_count (Key single) (events (shared ms1)) =
      exec_count (Key single) (events s0) →
    all_threads inside_Do ms1 = true →
    run sched2 ms1 = Some ms2 →
    all_threads has_returned ms2 = true →
    exec_count (Key single) (events (shared ms2)) =
      exec_count (Key single) (events s0) + 1 ∧
    ∃ c cl,
      EvExec (Key single) c ∈ events (shared ms2) ∧
      calls (shared ms2) !! c = Some cl ∧
      ∀ i cr, cs !! i = Some cr →
        ∃ r, reply_of ms2 i = Some r ∧ carries (c_val cl) (c_err cl) r.

(** Two callers, one for an [int] and one for a [string]. *)
Definition int_caller : caller := mkCaller TInt (λ w, (7%Z, None, w)).
Definition string_caller : caller := mkCaller TString (λ w, ("seven", None, w)).
Definition int_and_string : list caller := [int_caller; string_caller].

(** Three callers for a [*Product], as the goroutines of [main] are. *)
Definition product_caller : caller :=
  mkCaller TPtrProduct (getProductFromCache_fn sample_Unmarshal 1).
Definition three_products : list caller :=
  [product_caller; product_caller; product_caller].

(** A work function of error type that fails: it returns [(nil, boom)]. *)
Definition failing_fn (w : World) : denote TError * option error * World :=
  (None, Some (errors_New "boom"), w).

Definition error_caller : caller := mkCaller TError failing_fn.

(** ** The distributed mutex *)

(** Modelled from the spec: go-redsync and the store behind it are not in
    the repository.  Section 3: a lease has a resource name, an owner token
    and an expiry deadline. *)
Record LockLease : Type := mkLease {
  lease_name : string;
  owner_token : string;
  expiry : nat
}.

(** Modelled from the spec: the shared lease store of section 6, the lease
    records it holds and its clock. *)
Record LeaseStore : Type := mkStore {
  leases : list LockLease;
  now : nat
}.

Definition unexpired (t : nat) (l : LockLease) : bool :=
  bool_decide (t < expiry l).

(** An unexpired lease for [name]. *)
Definition live (name : string) (t : nat) (l : LockLease) : bool :=
  bool_decide (lease_name l = name) && unexpired t l.

Definition owned_by (name ownerToken : string) (t : nat) (l : LockLease) : bool :=
  live name t l && bool_decide (owner_token l = ownerToken).

(** Modelled from the spec: [TryCreate] of section 6 creates the lease if
    and only if no unexpired lease exists for the name (section 4.3). *)
Definition TryCreate (name ownerToken : string) (ttl : nat) (st : LeaseStore)
    : bool * LeaseStore :=
  if existsb (live name (now st)) (leases st) then (false, st)
  else (true, mkStore (mkLease name ownerToken (now st + ttl) :: leases st)
                      (now st)).

(** Modelled from the spec: [DeleteIfOwner] of section 6 deletes the lease
    only if the caller's token is the recorded owner's. *)
Definition DeleteIfOwner (name ownerToken : string) (st : LeaseStore)
    : bool * LeaseStore :=
  if existsb (owned_by name ownerToken (now st)) (leases st)
  then (true,
        mkStore (filter (λ l, owned_by name ownerToken (now st) l = false)
                        (leases st))
                (now st))
  else (false, st).

(** The steps that change the store: the two conditional writes, the
    passing of time, and the store dropping what has expired. *)
Inductive lease_op : Type :=
| OpLock (name ownerToken : string) (ttl : nat)
| OpUnlock (name ownerToken : string)
| OpTick
| OpEvict.

Definition lease_step (op : lease_op) (st : LeaseStore) : LeaseStore :=
  match op with
  | OpLock name ownerToken ttl => (TryCreate name ownerToken ttl st).2
  | OpUnlock name ownerToken => (DeleteIfOwner name ownerToken st).2
  | OpTick => mkStore (leases st) (S (now st))
  | OpEvict =>
      mkStore (filter (λ l, unexpired (now st) l = true) (leases st)) (now st)
  end.

Definition lease_run (ops : list lease_op) (st : LeaseStore) : LeaseStore :=
  foldl (λ st op, lease_step op st) st ops.

Definition empty_store : LeaseStore := mkStore [] 0.

Definition live_count (name : string) (st : LeaseStore) : nat :=
  length (filter (λ l, live name (now st) l = true) (leases st)).

(** The two outcomes of section 7 that the mutex reports. *)
Definition LockContention : error := foreign "LockContention".
Definition LockOwnershipMismatch : error := foreign "LockOwnershipMismatch".

(** The mutex as [AddToBankAccountWithMutex] uses it: [Lock() error] and
    [Unlock() (bool, error)], acting on some shared state. *)
Record Mutex (S : Type) : Type := mkMutex {
  Lock : S → option error * S;
  Unlock : S → bool * option error * S
}.

Arguments mkMutex {S} Lock Unlock.
Arguments Lock {S} _ _.
Arguments Unlock {S} _ _.

(** [*redsync.Redsync]: it makes the mutex of a name. *)
Record Redsync (S : Type) : Type := mkRedsync {
  NewMutex : string → Mutex S
}.

Arguments mkRedsync {S} NewMutex.
Arguments NewMutex {S} _ _.

(** Modelled from the spec: the mutex of section 4.3 over the lease store,
    with the token and the lease duration of one acquisition. *)
Definition lease_mutex (ownerToken : string) (ttl : nat) (name : string)
    : Mutex LeaseStore :=
  mkMutex
    (λ st, let '(acquired, st) := TryCreate name ownerToken ttl st in
           (if acquired then None else Some LockContention, st))
    (λ st, let '(deleted, st) := DeleteIfOwner name ownerToken st in
           (deleted, if deleted then None else Some LockOwnershipMismatch, st)).

Definition lease_redsync (ownerToken : string) (ttl : nat) : Redsync LeaseStore :=
  mkRedsync (lease_mutex ownerToken ttl).

(** main.go, lines 171-190.  [err] is the named result; the deferred
    closure declares an [ok] and an [err] of its own and returns from
    itself only. *)
Definition AddToBankAccountWithMutex {S : Type} (accountId : string)
    (amount : Z) (redSync : Redsync S) (st : S) : option error * S :=
  let mutex := NewMutex redSync ("add-account:{" +:+ accountId +:+ "}") in
  let '(err, st) := Lock mutex st in
  match err with
  | Some _ => (err, st)
  | None =>
      (* put logic here *)
      let '(ok, err', st) := Unlock mutex st in
      let _ := if negb ok || bool_decide (err' ≠ None) then tt else tt in
      (err, st)
  end.

(** A mutex whose [Unlock] always fails. *)
Definition stuck_mutex : Mutex unit :=
  mkMutex (λ st, (None, st))
          (λ st, (false, Some (foreign "redsync: failed to unlock"), st)).

(** * The rest of the package *)

(** ** singleflight_test.go *)

(** Lines 12-15.  The sleep takes time and changes nothing. *)
Definition fetchProduct (w : World) : option Product * option error * World :=
  (Some (mkProduct 1 "Expensive Product"), None, w).

(** Lines 18-20. *)
Definition getProductWithoutSingleflight (w : World)
    : option Product * option error * World :=
  fetchProduct w.

(** Lines 23-30. *)
Definition getProductWithSingleflight : prog (option Product * option error) :=
  let singleflightInstance := mkSingleflight "singleflight:product:1" in
  ProccesWrapper TPtrProduct singleflightInstance fetchProduct.

(** Lines 46-58: the goroutines [BenchmarkWithSingleflight] starts, [n]
    of them, all calling [getProductWithSingleflight] on one group. *)
Definition benchmark_goroutines (n : nat)
    : gmap nat (tstate (option Product * option error)) :=
  map_seq 0 (replicate n (Ready getProductWithSingleflight)).

(** ** Goroutines that call [getProductFromCache]

    The loop of [main] (lines 119-139) starts one goroutine per index, each
    calling [getProductFromCache] for the same product with its index. *)

Definition product_goroutines (json_Unmarshal : string → Product + error)
    (productID : Z) (idxs : list Z)
    : gmap nat (tstate (option Product * option error)) :=
  map_seq 0
    ((λ idx, Ready (getProductFromCache json_Unmarshal productID idx)) <$> idxs).

(** The ten indices of the loop of [main]. *)
Definition main_indices : list Z := Z.of_nat <$> seq 0 10.

(** The continuation [getProductFromCache] hands to [Do]. *)
Definition getProductFromCache_cont
    : cont (option Product * option error) :=
  λ r, prog_bind
         (λ '(res, err),
            match err with
            | Some e =>
                Ret (None, errors_Wrap (Some e) "Failed to get product from cache")
            | None => Ret (res, None)
            end)
         (ProccesWrapper_ret TPtrProduct r).

(** A work function that only reads the store: it leaves the key-value
    map and the state of the connection alone and sends only GETs. *)
Definition reads (fn : work) : Prop :=
  ∀ w, kv (fn w).2 = kv w ∧ conn_err (fn w).2 = conn_err w ∧
       ∃ gets, cmds (fn w).2 = cmds w ++ gets ∧ Forall is_GET gets.

(** A program all of whose work functions only read. *)
Fixpoint reads_only {R : Type} (p : prog R) : Prop :=
  match p with
  | Ret _ => True
  | Group_Forget _ k => reads_only k
  | Group_Do _ fn k => reads fn ∧ ∀ r, reads_only (k r)
  end.

Definition thread_reads_only {R : Type} (t : tstate R) : Prop :=
  match t with
  | Ready p => reads_only p
  | Executing _ _ fn k => reads fn ∧ ∀ r, reads_only (k r)
  | Waiting _ k => ∀ r, reads_only (k r)
  end.

(** The states a goroutine of [product_goroutines] goes through when the
    product [p] is what the cache holds. *)
Definition product_thread (json_Unmarshal : string → Product + error)
    (productID : Z) (p : Product)
    (t : tstate (option Product * option error)) : Prop :=
  (∃ idx, t = Ready (getProductFromCache json_Unmarshal productID idx)) ∨
  t = Ready (getProductFromCache_do json_Unmarshal productID) ∨
  (∃ c, t = Executing (product_flight_key productID) c
            (wrapperFn TPtrProduct (getProductFromCache_fn json_Unmarshal productID))
            getProductFromCache_cont) ∨
  (∃ c, t = Waiting c getProductFromCache_cont) ∨
  t = Ready (Ret (Some p, None)).

(** Every completed Call holds the product and no error. *)
Definition calls_hold (p : Product) (s : sys) : Prop :=
  ∀ c cl, calls s !! c = Some cl → c_done cl = true →
          c_val cl = Some (DPtrProduct (Some p)) ∧ c_err cl = None.

(** The cache holds [raw] for the product and the connection works. *)
Definition cache_holds (productID : Z) (raw : string) (w : World) : Prop :=
  kv w !! product_cache_key productID = Some raw ∧ conn_err w = None.

(** What holds of the goroutines of [product_goroutines] in every state
    when the cache holds a value that decodes to [product]. *)
Definition product_inv (json_Unmarshal : string → Product + error)
    (productID : Z) (raw : string) (product : Product)
    (ms : msys (option Product * option error)) : Prop :=
  cache_holds productID raw (world (shared ms)) ∧
  calls_hold product (shared ms) ∧
  ∀ i t, threads ms !! i = Some t →
         product_thread json_Unmarshal productID product t.

(** A run of the goroutines of [main]: nine call [Do] together, and the
    one with index 2 comes late, forgets the key and runs the lookup
    again. *)
Definition main_schedule : list nat :=
  [0; 1; 3; 4; 5; 6; 7; 8; 9] ++ [0] ++ [1; 3; 4; 5; 6; 7; 8; 9] ++ [2; 2; 2].

(** ** main.go, lines 192-221: the lock made of GET, SET and DEL

    The store [AddToBankAccount] talks to keeps an expiry deadline with a
    value; the clock counts seconds.  [outage] is the transport error the
    client reports for every command while it lasts. *)

Record entry : Type := mkEntry {
  entry_val : string;
  entry_deadline : option nat
}.

Record Redis : Type := mkRedis {
  entries : gmap string entry;
  clock : nat;
  outage : option error
}.

Definition alive (t : nat) (e : entry) : bool :=
  match entry_deadline e with
  | None => true
  | Some d => bool_decide (t < d)
  end.

(** The key holds a value that has not expired. *)
Definition present (key : string) (rdb : Redis) : bool :=
  match entries rdb !! key with
  | Some e => alive (clock rdb) e
  | None => false
  end.

(** [rdb.Get(ctx, key).Err()] *)
Definition redis_Get_Err (key : string) (rdb : Redis) : option error :=
  match outage rdb with
  | Some e => Some e
  | None => if present key rdb then None else Some redis_Nil
  end.

(** [rdb.Set(ctx, key, val, ttl).Err()]; a [ttl] of 0 means no expiry. *)
Definition redis_Set_Err (key val : string) (ttl : nat) (rdb : Redis)
    : option error * Redis :=
  match outage rdb with
  | Some e => (Some e, rdb)
  | None =>
      (None,
       mkRedis
         (<[key := mkEntry val (if decide (ttl = 0) then None
                                else Some (clock rdb + ttl))]> (entries rdb))
         (clock rdb) (outage rdb))
  end.

(** [rdb.Del(ctx, key)], its result dropped. *)
Definition redis_Del (key : string) (rdb : Redis) : Redis :=
  match outage rdb with
  | Some e => rdb
  | None => mkRedis (delete key (entries rdb)) (clock rdb) (outage rdb)
  end.

(** [time.Minute], in seconds. *)
Definition time_Minute : nat := 60.

Definition account_key (accountId : string) : string :=
  "add-account:{" +:+ accountId +:+ "}".

(** Lines 192-221.  [err] is the named result; the deferred [Del] runs on
    the one path that registers it. *)
Definition AddToBankAccount (accountId : string) (amount : Z) (rdb : Redis)
    : option error * Redis :=
  let exist := true in
  let err := redis_Get_Err ("add-account:{" +:+ accountId +:+ "}") rdb in
  let returned :=
    match err with
    | Some e => bool_decide (e ≠ redis_Nil)
    | None => false
    end in
  let exist :=
    match err with
    | Some e => if bool_decide (e ≠ redis_Nil) then exist else false
    | None => exist
    end in
  if returned then (err, rdb)
  else if exist then (err, rdb)
  else
    let '(err, rdb) :=
      redis_Set_Err ("add-account:{" +:+ accountId +:+ "}") accountId
                    (time_Minute * 10) rdb in
    match err with
    | Some _ => (err, rdb)
    | None =>
        (* put logic here *)
        (err, redis_Del ("add-account:{" +:+ accountId +:+ "}") rdb)
    end.

(** *** Callers of [AddToBankAccount] interleaved

    A caller is before its GET, before its SET, between the SET and the
    deferred DEL (where the logic goes), or has returned. *)

Inductive ba_pc : Type :=
| BA_Get
| BA_Set
| BA_Logic
| BA_Returned (err : option error).

Global Instance ba_pc_eq_dec : EqDecision ba_pc.
Proof. solve_decision. Defined.

Definition ba_step (accountId : string) (pc : ba_pc) (rdb : Redis)
    : option (ba_pc * Redis) :=
  match pc with
  | BA_Get =>
      match redis_Get_Err (account_key accountId) rdb with
      | Some e =>
          if decide (e ≠ redis_Nil) then Some (BA_Returned (Some e), rdb)
          else Some (BA_Set, rdb)
      | None => Some (BA_Returned None, rdb)
      end
  | BA_Set =>
      match redis_Set_Err (account_key accountId) accountId
                          (time_Minute * 10) rdb with
      | (Some e, rdb) => Some (BA_Returned (Some e), rdb)
      | (None, rdb) => Some (BA_Logic, rdb)
      end
  | BA_Logic => Some (BA_Returned None, redis_Del (account_key accountId) rdb)
  | BA_Returned _ => None
  end.

(** What can happen next: a caller moves, a second passes, or the
    connection breaks or recovers. *)
Inductive ba_label : Type :=
| BaCaller (i : nat)
| BaTick
| BaOutage (o : option error).

Record ba_sys : Type := mkBaSys {
  ba_redis : Redis;
  ba_callers : list (string * ba_pc)
}.

Definition ba_move (l : ba_label) (s : ba_sys) : option ba_sys :=
  match l with
  | BaCaller i =>
      match ba_callers s !! i with
      | Some (accountId, pc) =>
          match ba_step accountId pc (ba_redis s) with
          | Some (pc', rdb) =>
              Some (mkBaSys rdb (<[i := (accountId, pc')]> (ba_callers s)))
          | None => None
          end
      | None => None
      end
  | BaTick =>
      Some (mkBaSys (mkRedis (entries (ba_redis s)) (S (clock (ba_redis s)))
                             (outage (ba_redis s)))
                    (ba_callers s))
  | BaOutage o =>
      Some (mkBaSys (mkRedis (entries (ba_redis s)) (clock (ba_redis s)) o)
                    (ba_callers s))
  end.

Fixpoint ba_run (ls : list ba_label) (s : ba_sys) : option ba_sys :=
  match ls with
  | [] => Some s
  | l :: ls =>
      match ba_move l s with
      | Some s' => ba_run ls s'
      | None => None
      end
  end.

(** A caller on its own: its steps until it has returned. *)
Definition ba_alone (accountId : string) (rdb : Redis) : ba_pc * Redis :=
  let next := λ '(pc, rdb), default (pc, rdb) (ba_step accountId pc rdb) in
  next (next (next (BA_Get, rdb))).

Definition idle_redis : Redis := mkRedis ∅ 0 None.

(** *** Callers of [AddToBankAccountWithMutex] interleaved

    Over the lease store a caller is before its [Lock], inside the logic
    (holding a lease that lasts until [until]), or has returned.  Each
    caller has the owner token and the lease duration of its mutex. *)

Inductive mx_pc : Type :=
| MX_Lock
| MX_Logic (until : nat)
| MX_Returned (err : option error).

Record mx_caller : Type := mkMxCaller {
  mx_account : string;
  mx_token : string;
  mx_ttl : nat;
  mx_at : mx_pc
}.

Definition mx_name (c : mx_caller) : string :=
  "add-account:{" +:+ mx_account c +:+ "}".

Definition mx_moved (c : mx_caller) (pc : mx_pc) : mx_caller :=
  mkMxCaller (mx_account c) (mx_token c) (mx_ttl c) pc.

Definition mx_step (c : mx_caller) (st : LeaseStore)
    : option (mx_pc * LeaseStore) :=
  let mutex := NewMutex (lease_redsync (mx_token c) (mx_ttl c)) (mx_name c) in
  match mx_at c with
  | MX_Lock =>
      let '(err, st') := Lock mutex st in
      match err with
      | Some _ => Some (MX_Returned err, st')
      | None => Some (MX_Logic (now st + mx_ttl c), st')
      end
  | MX_Logic _ =>
      let '(_, _, st') := Unlock mutex st in
      Some (MX_Returned None, st')
  | MX_Returned _ => None
  end.

Inductive mx_label : Type :=
| MxCaller (i : nat)
| MxTick
| MxEvict.

Record mx_sys : Type := mkMxSys {
  mx_store : LeaseStore;
  mx_callers : list mx_caller
}.

Definition mx_move (l : mx_label) (s : mx_sys) : option mx_sys :=
  match l with
  | MxCaller i =>
      match mx_callers s !! i with
      | Some c =>
          match mx_step c (mx_store s) with
          | Some (pc, st) =>
              Some (mkMxSys st (<[i := mx_moved c pc]> (mx_callers s)))
          | None => None
          end
      | None => None
      end
  | MxTick => Some (mkMxSys (lease_step OpTick (mx_store s)) (mx_callers s))
  | MxEvict => Some (mkMxSys (lease_step OpEvict (mx_store s)) (mx_callers s))
  end.

Fixpoint mx_run (ls : list mx_label) (s : mx_sys) : option mx_sys :=
  match ls with
  | [] => Some s
  | l :: ls =>
      match mx_move l s with
      | Some s' => mx_run ls s'
      | None => None
      end
  end.

(** A caller inside the logic whose lease has not expired has its lease
    in the store. *)
Definition mx_holds (s : mx_sys) : Prop :=
  ∀ i c until,
    mx_callers s !! i = Some c → mx_at c = MX_Logic until →
    now (mx_store s) < until →
    mkLease (mx_name c) (mx_token c) until ∈ leases (mx_store s).

Definition mx_inv (s : mx_sys) : Prop :=
  NoDup (mx_token <$> mx_callers s) ∧
  (∀ name, live_count name (mx_store s) ≤ 1) ∧
  mx_holds s.

(** * Properties *)

(** ** Boxing and type assertions *)

Lemma type_assert_box_inv T res v : type_assert T res = Some v → box T v = res.
Proof.
  destruct res as [d|]; [|done].
  destruct T, d; simpl; intros; simplify_eq; done.
Qed.

Lemma type_assert_box T v : box T v ≠ None → type_assert T (box T v) = Some v.
Proof.
  destruct T; simpl in *; try done.
  - destruct v; simpl; done.
  - destruct v; simpl; done.
Qed.

Lemma box_concrete T v : is_interface T = false → box T v ≠ None.
Proof. destruct T; simpl; done. Qed.

(** ** History counters *)

Lemma do_count_app key evs1 evs2 :
  do_count key (evs1 ++ evs2) = do_count key evs1 + do_count key evs2.
Proof. unfold do_count. by rewrite filter_app, length_app. Qed.

Lemma exec_count_app key evs1 evs2 :
  exec_count key (evs1 ++ evs2) = exec_count key evs1 + exec_count key evs2.
Proof. unfold exec_count. by rewrite filter_app, length_app. Qed.

Lemma do_count_one key e :
  do_count key [e] = if is_do key e then 1 else 0.
Proof.
  unfold do_count. destruct (is_do key e) eqn:E.
  - rewrite filter_cons_True by done. done.
  - rewrite filter_cons_False by (rewrite E; done). done.
Qed.

Lemma exec_count_one key e :
  exec_count key [e] = if is_exec key e then 1 else 0.
Proof.
  unfold exec_count. destruct (is_exec key e) eqn:E.
  - rewrite filter_cons_True by done. done.
  - rewrite filter_cons_False by (rewrite E; done). done.
Qed.

Lemma do_count_forget key key' evs :
  do_count key (evs ++ [EvForget key']) = do_count key evs.
Proof. rewrite do_count_app, do_count_one. simpl. lia. Qed.

Lemma do_count_join key evs c :
  do_count key (evs ++ [EvJoin key c]) = do_count key evs + 1.
Proof.
  rewrite do_count_app, do_count_one. simpl. by rewrite bool_decide_true.
Qed.

Lemma do_count_start_exec key evs c :
  do_count key (evs ++ [EvStart key c; EvExec key c]) = do_count key evs + 1.
Proof.
  change [EvStart key c; EvExec key c] with ([EvStart key c] ++ [EvExec key c]).
  rewrite !do_count_app, !do_count_one. simpl.
  rewrite bool_decide_true by done. lia.
Qed.

Lemma exec_count_start_exec key evs c :
  exec_count key (evs ++ [EvStart key c; EvExec key c]) = exec_count key evs + 1.
Proof.
  change [EvStart key c; EvExec key c] with ([EvStart key c] ++ [EvExec key c]).
  rewrite !exec_count_app, !exec_count_one. simpl.
  rewrite bool_decide_true by done. lia.
Qed.

(** ** One goroutine on its own *)

Lemma sys_enter_fresh key s :
  registry s !! key = None →
  sys_enter key s =
    (Started (length (calls s)),
     mkSys (<[key := length (calls s)]> (registry s))
           (calls s ++ [mkCall None None false 0]) (world s)
           (events s ++ [EvStart key (length (calls s))])).
Proof. intros H. unfold sys_enter. rewrite H. done. Qed.

Lemma sys_enter_join key c s :
  registry s !! key = Some c →
  sys_enter key s =
    (Joined c,
     mkSys (registry s) (alter add_dup c (calls s)) (world s)
           (events s ++ [EvJoin key c])).
Proof. intros H. unfold sys_enter. rewrite H. done. Qed.

(** A [Do] that finds no Call registered runs the work function and
    continues with its result; the group is left as it was found, with one
    more completed Call in its history. *)
Lemma run_seq_Do_start {R} key fn (k : iface * option error * bool → prog R) s :
  registry s !! key = None →
  run_seq (Group_Do key fn k) s =
    let '(val, err, w) := fn (world s) in
    run_seq (k (val, err, false))
      (mkSys (registry s) (calls s ++ [mkCall val err true 0]) w
         (events s ++ [EvStart key (length (calls s));
                       EvExec key (length (calls s))])).
Proof.
  intros Hn. simpl. rewrite (sys_enter_fresh _ _ Hn).
  unfold sys_exec. simpl. destruct (fn (world s)) as [[val err] w].
  rewrite lookup_insert_eq, decide_True by done.
  rewrite delete_insert_eq, delete_id by done.
  rewrite lookup_app_r by done. rewrite Nat.sub_diag. simpl.
  rewrite insert_app_r_alt by done. rewrite Nat.sub_diag. simpl.
  rewrite <- app_assoc. done.
Qed.

Lemma run_seq_Do_join {R} key fn (k : iface * option error * bool → prog R) c s :
  registry s !! key = Some c →
  run_seq (Group_Do key fn k) s =
    (Suspended c k,
     mkSys (registry s) (alter add_dup c (calls s)) (world s)
           (events s ++ [EvJoin key c])).
Proof. intros Hc. simpl. rewrite (sys_enter_join _ _ _ Hc). done. Qed.

Lemma ProccesWrapper_ret_is_Ret T r :
  ∃ x, ProccesWrapper_ret T r = Ret x.
Proof.
  destruct r as [[res err] sh]. unfold ProccesWrapper_ret.
  destruct (type_assert T res); eauto.
Qed.

(** The initiating call of [ProccesWrapper] hands back what [fn] produced
    whenever the value boxes to a non-nil interface, which is the case for
    every [T] that is not an interface type. *)
Lemma ProccesWrapper_initiator_passthrough T single fn s :
  registry s !! Key single = None →
  box T (fn (world s)).1.1 ≠ None →
  (run_seq (ProccesWrapper T single fn) s).1 = Returned (fn (world s)).1.
Proof.
  intros Hn Hb. unfold ProccesWrapper.
  rewrite (run_seq_Do_start _ _ _ _ Hn). unfold wrapperFn.
  destruct (fn (world s)) as [[v err] w]. simpl in *.
  rewrite (type_assert_box _ _ Hb). done.
Qed.

(** A program that [run_seq] runs to its end is a run of the goroutine
    alone in the interleaved semantics. *)
Lemma run_seq_solo {R} (p : prog R) : ∀ s r s',
  run_seq p s = (Returned r, s') →
  ∃ sched, run sched (mkMsys s {[0 := Ready p]})
           = Some (mkMsys s' {[0 := Ready (Ret r)]}).
Proof.
  induction p as [r0|key k IH|key fn k IH]; intros s r s' H; simpl in H.
  - simplify_eq. by exists [].
  - destruct (IH _ _ _ H) as [sched Hs]. exists (0 :: sched). simpl.
    unfold step. cbn [threads shared]. rewrite lookup_singleton_eq.
    by rewrite insert_singleton_eq.
  - destruct (sys_enter key s) as [[c|c] s1] eqn:E; [|done].
    destruct (sys_exec key c fn s1) as [r1 s2] eqn:E2.
    destruct (IH _ _ _ _ H) as [sched Hs]. exists (0 :: 0 :: sched). simpl.
    unfold step at 1. cbn [threads shared]. rewrite lookup_singleton_eq, E.
    rewrite insert_singleton_eq.
    unfold step at 1. cbn [threads shared]. rewrite lookup_singleton_eq, E2.
    by rewrite insert_singleton_eq.
Qed.


(** ** [getProductFromCache] *)

Section GetProductProps.

Variable json_Unmarshal : string → Product + error.

(** The closure only reads: it sends one GET. *)
Lemma getProductFromCache_fn_world productID w :
  kv (getProductFromCache_fn json_Unmarshal productID w).2 = kv w ∧
  cmds (getProductFromCache_fn json_Unmarshal productID w).2 =
    cmds w ++ [GET (product_cache_key productID)].
Proof.
  unfold getProductFromCache_fn, rdb_Get, product_cache_key.
  destruct (conn_err w) as [e|]; simpl.
  - destruct (errors_Is e redis_Nil); done.
  - destruct (kv w !! _) as [val|]; simpl; [|done].
    destruct (json_Unmarshal val); done.
Qed.

Lemma after_forget_fresh productID currIdx s :
  registry s !! product_flight_key productID = None ∨ currIdx = 2%Z →
  registry (after_forget productID currIdx s) !! product_flight_key productID
    = None.
Proof.
  unfold after_forget. intros [H | ->]; simpl.
  - destruct (_ =? _)%Z; simpl; [apply lookup_delete_eq | done].
  - apply lookup_delete_eq.
Qed.

Lemma after_forget_world productID currIdx s :
  world (after_forget productID currIdx s) = world s.
Proof. unfold after_forget. by destruct (_ =? _)%Z. Qed.

Lemma after_forget_do_count productID currIdx s key :
  do_count key (events (after_forget productID currIdx s)) =
  do_count key (events s).
Proof.
  unfold after_forget, sys_forget. destruct (_ =? _)%Z; [|done].
  cbn [events]. apply do_count_forget.
Qed.

Lemma run_seq_getProductFromCache productID currIdx s :
  run_seq (getProductFromCache json_Unmarshal productID currIdx) s =
  run_seq (getProductFromCache_do json_Unmarshal productID)
          (after_forget productID currIdx s).
Proof.
  unfold getProductFromCache, after_forget, product_flight_key.
  destruct (_ =? _)%Z; reflexivity.
Qed.

(** The call that finds no Call registered runs the closure itself. *)
Lemma run_seq_getProductFromCache_start productID currIdx s :
  registry s !! product_flight_key productID = None ∨ currIdx = 2%Z →
  let s0 := after_forget productID currIdx s in
  let c := length (calls s0) in
  let '(v, err, w) := getProductFromCache_fn json_Unmarshal productID (world s) in
  run_seq (getProductFromCache json_Unmarshal productID currIdx) s =
    (Returned (getProductFromCache_ret (v, err)),
     mkSys (registry s0)
       (calls s0 ++ [mkCall (Some (DPtrProduct v)) err true 0]) w
       (events s0 ++ [EvStart (product_flight_key productID) c;
                      EvExec (product_flight_key productID) c])).
Proof.
  intros H. simpl.
  destruct (getProductFromCache_fn json_Unmarshal productID (world s))
    as [[v err] w] eqn:E.
  rewrite run_seq_getProductFromCache. unfold getProductFromCache_do.
  rewrite run_seq_Do_start by (by apply after_forget_fresh).
  unfold wrapperFn. rewrite after_forget_world, E. simpl.
  unfold getProductFromCache_ret. by destruct err.
Qed.

(** The call that finds a Call registered joins it and sends nothing to
    Redis; resumed with the Call's result it returns at once. *)
Lemma run_seq_getProductFromCache_join productID currIdx s c :
  registry (after_forget productID currIdx s) !! product_flight_key productID
    = Some c →
  let s0 := after_forget productID currIdx s in
  ∃ k, run_seq (getProductFromCache json_Unmarshal productID currIdx) s =
    (Suspended c k,
     mkSys (registry s0) (alter add_dup c (calls s0)) (world s)
           (events s0 ++ [EvJoin (product_flight_key productID) c])) ∧
    ∀ r s2, (run_seq (k r) s2).2 = s2.
Proof.
  intros Hc. simpl. rewrite run_seq_getProductFromCache.
  unfold getProductFromCache_do. eexists. split.
  - rewrite (run_seq_Do_join _ _ _ _ _ Hc), after_forget_world. done.
  - intros [[res err] sh] s2. simpl.
    destruct (type_assert TPtrProduct res); simpl; [destruct err|]; done.
Qed.

(** C4, as amended: [getProductFromCache] enters the coalescer on every
    call, whatever the cache holds: it calls [Group.Do] exactly once, and
    the cache is read by the work function inside it.  On a hit, when the
    call runs the work function and the cached value decodes, the cached
    product is returned after exactly one GET sent from inside [Do]. *)
Theorem getProductFromCache_always_enters_coalescer productID currIdx s :
  do_count (product_flight_key productID)
    (events (run_seq (getProductFromCache json_Unmarshal productID currIdx) s).2)
    = do_count (product_flight_key productID) (events s) + 1 ∧
  ∀ raw product,
    registry s !! product_flight_key productID = None ∨ currIdx = 2%Z →
    (rdb_Get (product_cache_key productID) (world s)).1 = (raw, None) →
    json_Unmarshal raw = inl product →
    let s0 := after_forget productID currIdx s in
    let r := run_seq (getProductFromCache json_Unmarshal productID currIdx) s in
    r.1 = Returned (Some product, None) ∧
    events r.2 = events s0 ++
      [EvStart (product_flight_key productID) (length (calls s0));
       EvExec (product_flight_key productID) (length (calls s0))] ∧
    cmds (world r.2) = cmds (world s) ++ [GET (product_cache_key productID)].
Proof.
  split.
  - destruct (registry (after_forget productID currIdx s)
                !! product_flight_key productID) as [c|] eqn:Hc.
    + destruct (run_seq_getProductFromCache_join _ _ _ _ Hc) as (k & -> & _).
      cbn [snd events]. by rewrite do_count_join, after_forget_do_count.
    + rewrite run_seq_getProductFromCache. unfold getProductFromCache_do.
      rewrite run_seq_Do_start by done.
      destruct (wrapperFn _ _ _) as [[val err] w].
      destruct (ProccesWrapper_ret_is_Ret TPtrProduct (val, err, false))
        as [[res err'] ->].
      cbn [prog_bind]. destruct err'; cbn [run_seq snd events];
        by rewrite do_count_start_exec, after_forget_do_count.
  - intros raw product Hreg Hget Hdec.
    pose proof (run_seq_getProductFromCache_start productID currIdx s Hreg)
      as Hrun.
    pose proof (getProductFromCache_fn_world productID (world s)) as [_ Hcmds].
    simpl in Hrun.
    assert (getProductFromCache_fn json_Unmarshal productID (world s) =
            (Some product, None,
             (getProductFromCache_fn json_Unmarshal productID (world s)).2)) as E.
    { unfold getProductFromCache_fn in *. unfold product_cache_key in Hget.
      destruct (rdb_Get _ _) as [[val e] w]. simpl in Hget.
      injection Hget as -> ->. by rewrite Hdec. }
    rewrite E in Hrun. rewrite Hrun. simpl. done.
Qed.

(** C5: when the store reports that there is no record ([redis.Nil]),
    the call that runs the work function returns a nil product and a nil
    error; any other error of the store comes back as a non-nil error. *)
Theorem getProductFromCache_redis_Nil productID currIdx s e :
  registry s !! product_flight_key productID = None ∨ currIdx = 2%Z →
  (rdb_Get (product_cache_key productID) (world s)).1.2 = Some e →
  (run_seq (getProductFromCache json_Unmarshal productID currIdx) s).1 =
    if errors_Is e redis_Nil then Returned (None, None)
    else Returned (None, Some (withMessage e "Failed to get product from cache")).
Proof.
  intros Hreg Hget.
  pose proof (run_seq_getProductFromCache_start productID currIdx s Hreg)
    as Hrun.
  simpl in Hrun. unfold getProductFromCache_fn in Hrun.
  unfold product_cache_key in Hget.
  destruct (rdb_Get _ _) as [[val e'] w]. simpl in Hget. subst e'.
  destruct (errors_Is e redis_Nil); rewrite Hrun; done.
Qed.

(** C6: a cached value that does not decode makes the call that read it
    return a non-nil error, the decoder's error wrapped twice. *)
Theorem getProductFromCache_unmarshal_failure productID currIdx s raw e :
  registry s !! product_flight_key productID = None ∨ currIdx = 2%Z →
  (rdb_Get (product_cache_key productID) (world s)).1 = (raw, None) →
  json_Unmarshal raw = inr e →
  (run_seq (getProductFromCache json_Unmarshal productID currIdx) s).1 =
    Returned
      (None,
       Some (withMessage (withMessage e "Failed to unmarshal product")
                         "Failed to get product from cache")).
Proof.
  intros Hreg Hget Hdec.
  pose proof (run_seq_getProductFromCache_start productID currIdx s Hreg)
    as Hrun.
  simpl in Hrun. unfold getProductFromCache_fn in Hrun.
  unfold product_cache_key in Hget.
  destruct (rdb_Get _ _) as [[val e'] w]. simpl in Hget.
  injection Hget as -> ->. rewrite Hdec in Hrun. rewrite Hrun. done.
Qed.

(** C8: whatever the cache and the group hold, a call leaves the
    key-value store as it found it: the only commands it sends are GETs
    (none at all when it joins a Call in flight), and resuming a joined
    call touches nothing. *)
Theorem getProductFromCache_never_writes productID currIdx s :
  let r := run_seq (getProductFromCache json_Unmarshal productID currIdx) s in
  kv (world r.2) = kv (world s) ∧
  (∃ sent, cmds (world r.2) = cmds (world s) ++ sent ∧ Forall is_GET sent) ∧
  match r.1 with
  | Returned _ => True
  | Suspended _ k => ∀ res s2, (run_seq (k res) s2).2 = s2
  end.
Proof.
  simpl.
  destruct (registry (after_forget productID currIdx s)
              !! product_flight_key productID) as [c|] eqn:Hc.
  - destruct (run_seq_getProductFromCache_join _ _ _ _ Hc) as (k & -> & Hk).
    simpl. split_and!; [done | | done].
    exists []. by rewrite app_nil_r.
  - rewrite run_seq_getProductFromCache. unfold getProductFromCache_do.
    rewrite run_seq_Do_start by done. unfold wrapperFn.
    rewrite after_forget_world.
    pose proof (getProductFromCache_fn_world productID (world s)) as [Hkv Hcmds].
    destruct (getProductFromCache_fn json_Unmarshal productID (world s))
      as [[v err] w].
    simpl in *. destruct err; simpl; (split_and!; [done | | done]);
      eexists; (split; [exact Hcmds | by repeat constructor]).
Qed.

End GetProductProps.

(** ** [ProccesWrapper] *)

(** C2 says that the call which starts the execution returns the pair
    [fn] produced, the error unchanged.  The code does not do so at this
    input: for [Singleflight[error]] and an [fn] that returns
    [(nil, boom)], [wrapperFn] turns the nil value into the nil interface,
    the type assertion fails on it, and the caller gets the assertion
    failure in place of [boom]. *)
Theorem ProccesWrapper_nil_interface_replaced :
  failing_fn empty_world = (None, Some (errors_New "boom"), empty_world) ∧
  (run_seq (ProccesWrapper TError (mkSingleflight "k") failing_fn) empty_sys).1
    = Returned (None, Some (errors_New "unexpected type assertion failure")).
Proof. split; reflexivity. Qed.

(** What [ProccesWrapper] returns for a triple of [Do], as a reply. *)
Lemma ProccesWrapper_ret_reply T val err sh :
  prog_bind (λ '(v, e), Ret (mkReply T v e)) (ProccesWrapper_ret T (val, err, sh))
  = Ret (ProccesWrapper_reply T val err).
Proof.
  unfold ProccesWrapper_ret, ProccesWrapper_reply.
  by destruct (type_assert T val).
Qed.

(** C7: when the value [Do] hands back is not a [T], [ProccesWrapper]
    returns a non-nil error, and the value it returns is the zero value of
    [T], never the value of the other type. *)
Theorem ProccesWrapper_type_mismatch T single fn res err shared :
  type_assert T res = None →
  (∃ e, after_Do (ProccesWrapper T single fn) (res, err, shared)
        = Ret (zero T, Some e)) ∧
  (∀ v e, after_Do (ProccesWrapper T single fn) (res, err, shared) = Ret (v, e) →
          v = zero T ∧ e ≠ None).
Proof.
  intros H. simpl. unfold ProccesWrapper_ret. rewrite H. split; [eauto|].
  intros v e [= <- <-]. done.
Qed.

Lemma ProccesWrapper_type_mismatch_witness :
  ∃ e, after_Do (ProccesWrapper TString (mkSingleflight "product:1")
                   (λ w, ("seven", None, w)))
         (Some (DInt 7), None, true)
       = Ret (zero TString, Some e).
Proof.
  apply (ProccesWrapper_type_mismatch TString (mkSingleflight "product:1")
           (λ w, ("seven", None, w)) (Some (DInt 7)) None true).
  reflexivity.
Defined.

(** A value is only ever returned as a [T] when it is the very value [Do]
    handed back. *)
Lemma ProccesWrapper_no_coercion T res err shared v e :
  ProccesWrapper_ret T (res, err, shared) = Ret (v, e) →
  (box T v = res ∧ e = err) ∨
  (type_assert T res = None ∧ v = zero T ∧ e = Some type_assertion_failure).
Proof.
  unfold ProccesWrapper_ret.
  destruct (type_assert T res) as [x|] eqn:E; intros [= <- <-].
  - left. split; [by apply type_assert_box_inv|done].
  - by right.
Qed.

(** C9: when the type assertion fails, [ProccesWrapper] returns the zero
    value of [T] with the fixed error, whatever error [Do] returned: an
    error of the work function that comes with such a value is replaced. *)
Theorem ProccesWrapper_assertion_failure T single fn res err shared :
  type_assert T res = None →
  after_Do (ProccesWrapper T single fn) (res, err, shared) =
    Ret (zero T, Some (errors_New "unexpected type assertion failure")) ∧
  ∀ err' shared',
    after_Do (ProccesWrapper T single fn) (res, err', shared') =
    after_Do (ProccesWrapper T single fn) (res, err, shared).
Proof.
  intros H. simpl. unfold ProccesWrapper_ret. by rewrite H.
Qed.

Lemma ProccesWrapper_assertion_failure_witness :
  after_Do (ProccesWrapper TPtrProduct (mkSingleflight "product:1")
              (getProductFromCache_fn sample_Unmarshal 1))
    (Some (DString "seven"), Some (foreign "boom"), true) =
  Ret (zero TPtrProduct, Some (errors_New "unexpected type assertion failure")).
Proof.
  apply (ProccesWrapper_assertion_failure TPtrProduct
           (mkSingleflight "product:1")
           (getProductFromCache_fn sample_Unmarshal 1)
           (Some (DString "seven")) (Some (foreign "boom")) true).
  reflexivity.
Defined.

(** For a [T] that is not an interface type the initiating call hands
    back what [fn] produced. *)
Lemma ProccesWrapper_initiator_concrete T single fn s :
  is_interface T = false →
  registry s !! Key single = None →
  (run_seq (ProccesWrapper T single fn) s).1 = Returned (fn (world s)).1.
Proof.
  intros HT Hn. apply ProccesWrapper_initiator_passthrough; [done|].
  by apply box_concrete.
Qed.

(** ** Witnesses and the counterexample for [getProductFromCache] *)

(** C4, as stated, fails: on a hit the coalescer is entered. *)
Lemma getProductFromCache_hit_enters_coalescer :
  kv (world warm_sys) !! product_cache_key 1 = Some product1_json ∧
  (run_seq (getProductFromCache sample_Unmarshal 1 0) warm_sys).1 =
    Returned (Some (mkProduct 1 "Product 1"), None) ∧
  do_count (product_flight_key 1) (events warm_sys) = 0 ∧
  do_count (product_flight_key 1)
    (events (run_seq (getProductFromCache sample_Unmarshal 1 0) warm_sys).2) = 1.
Proof. vm_compute. done. Qed.

Lemma getProductFromCache_always_enters_coalescer_witness :
  (run_seq (getProductFromCache sample_Unmarshal 1 0) warm_sys).1 =
    Returned (Some (mkProduct 1 "Product 1"), None).
Proof.
  pose proof (getProductFromCache_always_enters_coalescer sample_Unmarshal
                1%Z 0%Z warm_sys) as [_ H].
  apply (H product1_json (mkProduct 1 "Product 1"));
    [left|..]; vm_compute; reflexivity.
Defined.

Lemma getProductFromCache_redis_Nil_witness :
  (run_seq (getProductFromCache sample_Unmarshal 2 0) warm_sys).1 =
    Returned (None, None).
Proof.
  apply (getProductFromCache_redis_Nil sample_Unmarshal 2%Z 0%Z warm_sys
           redis_Nil); [left|]; vm_compute; reflexivity.
Defined.

Lemma getProductFromCache_unmarshal_failure_witness :
  (run_seq (getProductFromCache sample_Unmarshal 1 2)
     (mkSys ∅ [] (mkWorld {[ "product:1" := "{" ]} None [] []) [])).1 =
  Returned
    (None,
     Some (withMessage
             (withMessage
                (foreign "invalid character looking for beginning of value")
                "Failed to unmarshal product")
             "Failed to get product from cache")).
Proof.
  apply (getProductFromCache_unmarshal_failure sample_Unmarshal 1%Z 2%Z _ "{");
    [right|..]; vm_compute; reflexivity.
Defined.
Lemma exec_count_snoc key evs e :
  exec_count key (evs ++ [e]) = exec_count key evs + (if is_exec key e then 1 else 0).
Proof. by rewrite exec_count_app, exec_count_one. Qed.

Lemma exec_count_step {R} key i (ms ms' : msys R) :
  step i ms = Some ms' →
  exec_count key (events (shared ms)) ≤ exec_count key (events (shared ms')).
Proof.
  unfold step. intros H.
  destruct (threads ms !! i) as [[[r|key' k|key' fn k]|key' c fn k|c k]|]; simplify_eq.
  - cbn [shared sys_forget events]. rewrite exec_count_snoc. lia.
  - unfold sys_enter in H. destruct (registry (shared ms) !! key');
      simplify_eq; cbn [shared events]; rewrite exec_count_snoc; lia.
  - unfold sys_exec in H. destruct (fn (world (shared ms))) as [[val err] w].
    simplify_eq. cbn [shared events]. rewrite exec_count_snoc; lia.
  - destruct (sys_wait c (shared ms)); simplify_eq. done.
Qed.

Lemma exec_count_run {R} key sched : ∀ (ms ms' : msys R),
  run sched ms = Some ms' →
  exec_count key (events (shared ms)) ≤ exec_count key (events (shared ms')).
Proof.
  induction sched as [|i sched IH]; intros ms ms' H; simpl in H.
  - by simplify_eq.
  - destruct (step i ms) as [ms1|] eqn:E; [|done].
    apply (exec_count_step key) in E. apply IH in H. lia.
Qed.

(** ** Callers of one key, interleaved

    The callers are given by the work function and the continuation each
    hands to [Do]; every continuation returns at once, as that of
    [ProccesWrapper] does.  A run goes through the states [idle], [flight]
    and [completed]. *)

Section Coalescing.
Context {R : Type}.
Variable key : string.
Variable callers : list (work * cont R).
Hypothesis callers_return :
  ∀ i fn k r, callers !! i = Some (fn, k) → ∃ x, k r = Ret x.

Lemma covers_insert (P P' : nat → work → cont R → tstate R → Prop)
      ms s' i fn k t' :
  covers callers P ms →
  callers !! i = Some (fn, k) →
  P' i fn k t' →
  (∀ i' fn' k' t, i' ≠ i → callers !! i' = Some (fn', k') → P i' fn' k' t → P' i' fn' k' t) →
  covers callers P' (mkMsys s' (<[i := t']> (threads ms))).
Proof.
  intros Hc Hi Ht' Hoth i'. specialize (Hc i'). cbn [threads].
  destruct (decide (i' = i)) as [->|Hne].
  - rewrite Hi. exists t'. by rewrite lookup_insert_eq.
  - rewrite lookup_insert_ne by done.
    destruct (callers !! i') as [[fn' k']|] eqn:E; [|done].
    destruct Hc as (t & Ht & HP). exists t. split; [done|]. by eapply Hoth.
Qed.

Lemma covers_lookup P ms i fn k :
  covers callers P ms → callers !! i = Some (fn, k) →
  ∃ t, threads ms !! i = Some t ∧ P i fn k t.
Proof. intros Hc Hi. specialize (Hc i). by rewrite Hi in Hc. Qed.

Lemma covers_step P ms i ms' :
  covers callers P ms → step i ms = Some ms' →
  ∃ fn k t, callers !! i = Some (fn, k) ∧ threads ms !! i = Some t ∧ P i fn k t.
Proof.
  intros Hc Hs. specialize (Hc i).
  destruct (callers !! i) as [[fn k]|].
  - destruct Hc as (t & ? & ?). eauto 10.
  - unfold step in Hs. by rewrite Hc in Hs.
Qed.

(** The first caller to move registers a Call. *)
Lemma step_idle i ms ms' :
  idle key callers ms → step i ms = Some ms' →
  ∃ c, flight key callers i c ms' ∧
       exec_count key (events (shared ms')) = exec_count key (events (shared ms)).
Proof.
  intros [Hreg Hc] Hs.
  destruct (covers_step _ _ _ _ Hc Hs) as (fn & k & t & Hi & Ht & HP).
  unfold P_idle in HP. subst t. unfold step in Hs. rewrite Ht in Hs.
  rewrite (sys_enter_fresh _ _ Hreg) in Hs. simplify_eq.
  exists (length (calls (shared ms))). split; [|cbn [shared events]; rewrite exec_count_snoc; simpl; lia].
  split_and!; cbn [shared registry calls].
  - by rewrite lookup_insert_eq.
  - eexists. split; [by apply list_lookup_middle|done].
  - eapply covers_insert; [exact Hc|exact Hi|..].
    + unfold P_flight. by rewrite decide_True.
    + intros i' fn' k' t Hne _ HP. unfold P_idle in HP. unfold P_flight.
      rewrite decide_False by done. by left.
Qed.

Lemma pending_join c s key' :
  pending c s →
  pending c (mkSys (registry s) (alter add_dup c (calls s)) (world s)
               (events s ++ [EvJoin key' c])).
Proof.
  intros (cl & Hcl & Hd). exists (add_dup cl). cbn [calls]. split; [|done].
  rewrite list_lookup_alter_eq. by rewrite Hcl.
Qed.

(** While the Call is in flight a step is either a caller joining it, or
    its execution. *)
Lemma step_flight i j c ms ms' :
  flight key callers j c ms → step i ms = Some ms' →
  (flight key callers j c ms' ∧
     exec_count key (events (shared ms')) = exec_count key (events (shared ms)))
  ∨ exec_count key (events (shared ms')) = exec_count key (events (shared ms)) + 1.
Proof.
  intros (Hreg & Hp & Hc) Hs.
  destruct (covers_step _ _ _ _ Hc Hs) as (fn & k & t & Hi & Ht & HP).
  unfold P_flight in HP. unfold step in Hs. rewrite Ht in Hs.
  destruct (decide (i = j)) as [->|Hne].
  - subst t. right. unfold sys_exec in Hs.
    destruct (fn (world (shared ms))) as [[val err] w]. simplify_eq.
    cbn [shared events]. rewrite exec_count_snoc. simpl.
    by rewrite bool_decide_true.
  - destruct HP as [-> | ->].
    + rewrite (sys_enter_join _ _ _ Hreg) in Hs. simplify_eq. left.
      split; [|cbn [shared events]; rewrite exec_count_snoc; simpl; lia].
      split_and!; cbn [shared registry]; [done|by apply pending_join|].
      eapply covers_insert; [exact Hc|exact Hi|..].
      * unfold P_flight. rewrite decide_False by done. by right.
      * done.
    + destruct Hp as (cl & Hcl & Hd). unfold sys_wait in Hs.
      rewrite Hcl, Hd in Hs. done.
Qed.

(** Once every caller has joined, the only step is the execution by the
    caller that registered the Call. *)
Lemma step_joined i j c ms ms' :
  joined key callers j c ms → step i ms = Some ms' →
  ∃ fn k val err w,
    i = j ∧ callers !! j = Some (fn, k) ∧
    fn (world (shared ms)) = (val, err, w) ∧
    completed callers j c val err ms' ∧
    exec_count key (events (shared ms')) = exec_count key (events (shared ms)) + 1.
Proof.
  intros (Hp & Hc) Hs.
  destruct (covers_step _ _ _ _ Hc Hs) as (fn & k & t & Hi & Ht & HP).
  unfold P_joined in HP. unfold step in Hs. rewrite Ht in Hs.
  destruct (decide (i = j)) as [->|Hne].
  - subst t. unfold sys_exec in Hs.
    destruct (fn (world (shared ms))) as [[val err] w] eqn:Hfn. simplify_eq.
    exists fn, k, val, err, w. split_and!; try done.
    + split.
      * destruct Hp as (cl & Hcl & Hd). eexists. cbn [shared calls].
        rewrite list_lookup_insert_eq by (by eapply lookup_lt_Some). done.
      * eapply covers_insert; [exact Hc|exact Hi|..].
        -- unfold P_done. rewrite decide_True by done. eauto.
        -- intros i' fn' k' t Hne _ HP. unfold P_joined in HP. unfold P_done.
           rewrite decide_False in * by done. by left.
    + cbn [shared events]. rewrite exec_count_snoc. simpl.
      by rewrite bool_decide_true.
  - subst t. destruct Hp as (cl & Hcl & Hd). unfold sys_wait in Hs.
    rewrite Hcl, Hd in Hs. done.
Qed.

(** After completion a step wakes a waiter, which gets the stored pair. *)
Lemma step_completed i j c val err ms ms' :
  completed callers j c val err ms → step i ms = Some ms' →
  completed callers j c val err ms' ∧ shared ms' = shared ms.
Proof.
  intros (Hcl & Hc) Hs.
  destruct (covers_step _ _ _ _ Hc Hs) as (fn & k & t & Hi & Ht & HP).
  unfold P_done in HP. unfold step in Hs. rewrite Ht in Hs.
  destruct (decide (i = j)) as [->|Hne].
  - destruct HP as [sh ->].
    destruct (callers_return _ _ _ (val, err, sh) Hi) as [x Hx].
    rewrite Hx in Hs. done.
  - destruct HP as [-> | ->].
    + destruct Hcl as (cl & Hcl & Hd & Hv & He). unfold sys_wait in Hs.
      rewrite Hcl, Hd in Hs. simplify_eq. split; [|done].
      split; [by eexists|]. cbn [shared].
      eapply covers_insert; [exact Hc|exact Hi|..].
      * unfold P_done. rewrite decide_False by done. by right.
      * done.
    + destruct (callers_return _ _ _ (val, err, true) Hi) as [x Hx].
      rewrite Hx in Hs. done.
Qed.

(** Before the first completion the group is idle or has one Call in
    flight. *)
Lemma run_before_completion sched : ∀ ms ms1,
  idle key callers ms ∨ (∃ j c, flight key callers j c ms) →
  run sched ms = Some ms1 →
  exec_count key (events (shared ms1)) = exec_count key (events (shared ms)) →
  idle key callers ms1 ∨ (∃ j c, flight key callers j c ms1).
Proof.
  induction sched as [|i sched IH]; intros ms ms1 Hst Hrun Hcnt; simpl in Hrun.
  - by simplify_eq.
  - destruct (step i ms) as [ms'|] eqn:Hs; [|done].
    pose proof (exec_count_run key _ _ _ Hrun) as Hmono.
    destruct Hst as [Hidle | (j & c & Hfl)].
    + destruct (step_idle _ _ _ Hidle Hs) as (c & Hfl & Hcnt').
      apply (IH ms'); [right; eauto | done | lia].
    + destruct (step_flight _ _ _ _ _ Hfl Hs) as [[Hfl' Hcnt'] | Hcnt'].
      * apply (IH ms'); [right; eauto | done | lia].
      * lia.
Qed.

(** From the state where all have joined, a run stays there or goes
    through the one execution. *)
Lemma run_after_entry sched j c : ∀ ms ms2,
  joined key callers j c ms →
  run sched ms = Some ms2 →
  (joined key callers j c ms2 ∧
     exec_count key (events (shared ms2)) = exec_count key (events (shared ms)))
  ∨ ∃ fn k w val err w',
      callers !! j = Some (fn, k) ∧ fn w = (val, err, w') ∧
      completed callers j c val err ms2 ∧
      exec_count key (events (shared ms2)) = exec_count key (events (shared ms)) + 1.
Proof.
  assert (Hdone : ∀ sched val err ms ms2,
    completed callers j c val err ms → run sched ms = Some ms2 →
    completed callers j c val err ms2 ∧ shared ms2 = shared ms).
  { clear sched. induction sched as [|i sched IH]; intros val err ms ms2 Hd Hrun;
      simpl in Hrun.
    - by simplify_eq.
    - destruct (step i ms) as [ms'|] eqn:Hs; [|done].
      destruct (step_completed _ _ _ _ _ _ _ Hd Hs) as [Hd' Hsh].
      destruct (IH _ _ _ _ Hd' Hrun) as [? ?]. split; [done|congruence]. }
  induction sched as [|i sched IH]; intros ms ms2 Hj Hrun; simpl in Hrun.
  - simplify_eq. by left.
  - destruct (step i ms) as [ms'|] eqn:Hs; [|done].
    destruct (step_joined _ _ _ _ _ Hj Hs)
      as (fn & k & val & err & w & -> & Hi & Hfn & Hd & Hcnt).
    destruct (Hdone _ _ _ _ _ Hd Hrun) as [Hd2 Hsh].
    right. exists fn, k, (world (shared ms)), val, err, w.
    split_and!; [done..|]. rewrite Hsh. done.
Qed.

Lemma idle_start s0 :
  registry s0 !! key = None → idle key callers (mkMsys s0 (start_threads key callers)).
Proof.
  intros Hreg. split; [done|]. intros i. cbn [threads]. unfold start_threads, start_thread.
  rewrite lookup_map_seq_0, list_lookup_fmap.
  destruct (callers !! i) as [[fn k]|]; simpl; [|done].
  eexists. split; [done|]. done.
Qed.

(** Callers that are all inside [Do] before the first completion: one
    work function runs, once, and every continuation is resumed with the
    pair it produced. *)
Lemma coalesced_once s0 sched1 sched2 ms1 ms2 :
  callers ≠ [] →
  registry s0 !! key = None →
  run sched1 (mkMsys s0 (start_threads key callers)) = Some ms1 →
  exec_count key (events (shared ms1)) = exec_count key (events s0) →
  (∀ i t, threads ms1 !! i = Some t → inside_Do t = true) →
  run sched2 ms1 = Some ms2 →
  (∀ i t, threads ms2 !! i = Some t → is_Some (returned t)) →
  exec_count key (events (shared ms2)) = exec_count key (events s0) + 1 ∧
  ∃ j fnj kj w val err w',
    callers !! j = Some (fnj, kj) ∧ fnj w = (val, err, w') ∧
    (∀ i fn k, callers !! i = Some (fn, k) →
       ∃ sh, threads ms2 !! i = Some (Ready (k (val, err, sh)))) ∧
    (∀ i, callers !! i = None → threads ms2 !! i = None).
Proof.
  intros Hne Hreg Hrun1 Hcnt1 Hin Hrun2 Hret.
  assert (∃ fn0 k0, callers !! 0 = Some (fn0, k0)) as (fn0 & k0 & E0).
  { clear -Hne. destruct callers as [|[fn k] cs]; [done|]. by exists fn, k. }
  pose proof (run_before_completion _ _ _ (or_introl (idle_start _ Hreg))
                Hrun1 Hcnt1) as Hst.
  assert (∃ j c, joined key callers j c ms1) as (j & c & Hj).
  { destruct Hst as [[_ Hc] | (j & c & _ & Hp & Hc)].
    - destruct (covers_lookup _ _ 0 fn0 k0 Hc E0) as (t & Ht & HP).
      unfold P_idle in HP. subst t. by apply Hin in Ht.
    - exists j, c. split; [done|]. intros i. specialize (Hc i).
      destruct (callers !! i) as [[fn k]|]; [|done].
      destruct Hc as (t & Ht & HP). exists t. split; [done|].
      unfold P_flight in HP. unfold P_joined.
      destruct (decide (i = j)); [done|].
      destruct HP as [-> | ->]; [|done]. by apply Hin in Ht. }
  destruct (run_after_entry _ _ _ _ _ Hj Hrun2)
    as [[(_ & Hc) _] | (fn & k & w & val & err & w' & Hi & Hfn & Hd & Hcnt)].
  - destruct (callers !! j) as [[fn k]|] eqn:E.
    + destruct (covers_lookup _ _ j fn k Hc E) as (t & Ht & HP).
      unfold P_joined in HP. rewrite decide_True in HP by done. subst t.
      apply Hret in Ht. by destruct Ht.
    + (* j is not a caller: caller 0 waits *)
      destruct (covers_lookup _ _ 0 fn0 k0 Hc E0) as (t & Ht & HP).
      unfold P_joined in HP. destruct (decide (0 = j)); subst t;
        apply Hret in Ht; by destruct Ht.
  - split; [lia|]. exists j, fn, k, w, val, err, w'. destruct Hd as [_ Hc].
    split_and!; [done..| |].
    + intros i fn' k' Hi'.
      destruct (covers_lookup _ _ i fn' k' Hc Hi') as (t & Ht & HP).
      unfold P_done in HP. destruct (decide (i = j)).
      * destruct HP as [sh ->]. eauto.
      * destruct HP as [-> | ->]; [|eauto].
        apply Hret in Ht. by destruct Ht.
    + intros i Hi'. specialize (Hc i). by rewrite Hi' in Hc.
Qed.
(** *** The round-robin schedule completes

    Every caller can be brought into [Do] before the first completion,
    and from there every caller returns. *)

Lemma enter_rest c n : ∀ m ms,
  1 ≤ m → m + n = length callers →
  registry (shared ms) !! key = Some c → pending c (shared ms) →
  covers callers (P_upto key m c) ms →
  ∃ ms1, run (seq m n) ms = Some ms1 ∧
         pending c (shared ms1) ∧
         covers callers (P_upto key (m + n) c) ms1 ∧
         exec_count key (events (shared ms1)) = exec_count key (events (shared ms)).
Proof.
  induction n as [|n IH]; intros m ms Hm Hlen Hreg Hp Hc.
  - exists ms. rewrite Nat.add_0_r. done.
  - destruct (lookup_lt_is_Some_2 callers m) as [[fn k] Hi]; [lia|].
    destruct (covers_lookup _ _ _ _ _ Hc Hi) as (t & Ht & HP).
    unfold P_upto in HP. rewrite decide_False in HP by lia.
    rewrite decide_False in HP by lia. subst t.
    destruct (IH (S m)
      (mkMsys (mkSys (registry (shared ms)) (alter add_dup c (calls (shared ms)))
                 (world (shared ms)) (events (shared ms) ++ [EvJoin key c]))
              (<[m := Waiting c k]> (threads ms))))
      as (ms1 & Hrun & Hp1 & Hc1 & Hcnt); [lia | lia | done | | | ].
    + cbn [shared]. by apply pending_join.
    + eapply covers_insert; [exact Hc | exact Hi | ..].
      * unfold P_upto. rewrite decide_False by lia. by rewrite decide_True by lia.
      * intros i' fn' k' t Hne _. unfold P_upto.
        destruct (decide (i' = 0)); [done|].
        destruct (decide (i' < m)).
        -- by rewrite decide_True by lia.
        -- by rewrite decide_False by lia.
    + exists ms1. split_and!; [|done| |].
      * cbn [seq run]. unfold step at 1.
        rewrite Ht, (sys_enter_join _ _ _ Hreg). done.
      * by replace (m + S n) with (S m + n) by lia.
      * rewrite Hcnt. cbn [shared events]. rewrite exec_count_snoc. simpl. lia.
Qed.

Lemma wake_rest c val err n : ∀ m ms,
  1 ≤ m → m + n = length callers →
  (∃ cl, calls (shared ms) !! c = Some cl ∧ c_done cl = true ∧
         c_val cl = val ∧ c_err cl = err) →
  covers callers (P_woken m c val err) ms →
  ∃ ms2, run (seq m n) ms = Some ms2 ∧
         covers callers (P_woken (m + n) c val err) ms2 ∧
         shared ms2 = shared ms.
Proof.
  induction n as [|n IH]; intros m ms Hm Hlen Hcl Hc.
  - exists ms. rewrite Nat.add_0_r. done.
  - destruct (lookup_lt_is_Some_2 callers m) as [[fn k] Hi]; [lia|].
    destruct (covers_lookup _ _ _ _ _ Hc Hi) as (t & Ht & HP).
    unfold P_woken in HP. rewrite decide_False in HP by lia.
    rewrite decide_False in HP by lia. subst t.
    destruct (IH (S m)
      (mkMsys (shared ms) (<[m := Ready (k (val, err, true))]> (threads ms))))
      as (ms2 & Hrun & Hc2 & Hsh); [lia | lia | done | | ].
    + eapply covers_insert; [exact Hc | exact Hi | ..].
      * unfold P_woken. rewrite decide_False by lia. by rewrite decide_True by lia.
      * intros i' fn' k' t Hne _. unfold P_woken.
        destruct (decide (i' = 0)); [done|].
        destruct (decide (i' < m)).
        -- by rewrite decide_True by lia.
        -- by rewrite decide_False by lia.
    + exists ms2. split_and!; [| |done].
      * cbn [seq run]. unfold step at 1. rewrite Ht. unfold sys_wait.
        destruct Hcl as (cl & -> & -> & <- & <-). done.
      * by replace (m + S n) with (S m + n) by lia.
Qed.

Lemma round_robin_completes s0 :
  callers ≠ [] →
  registry s0 !! key = None →
  ∃ ms1 ms2,
    run (seq 0 (length callers)) (mkMsys s0 (start_threads key callers)) = Some ms1 ∧
    exec_count key (events (shared ms1)) = exec_count key (events s0) ∧
    (∀ i t, threads ms1 !! i = Some t → inside_Do t = true) ∧
    run (seq 0 (length callers)) ms1 = Some ms2 ∧
    (∀ i t, threads ms2 !! i = Some t → is_Some (returned t)).
Proof.
  intros Hne Hreg.
  destruct callers as [|[fn0 k0] cs0] eqn:Ecs; [done|]. rewrite <- Ecs in *.
  assert (callers !! 0 = Some (fn0, k0)) as E0 by (by rewrite Ecs).
  assert (length callers = S (length cs0)) as Hlen by (by rewrite Ecs).
  rewrite Hlen. clear Ecs.
  destruct (idle_start s0 Hreg) as [_ Hc0].
  destruct (covers_lookup _ _ _ _ _ Hc0 E0) as (t & Ht & HP).
  unfold P_idle in HP. subst t.
  set (c := length (calls s0)).
  destruct (enter_rest c (length cs0) 1
    (mkMsys (mkSys (<[key := c]> (registry s0))
               (calls s0 ++ [mkCall None None false 0]) (world s0)
               (events s0 ++ [EvStart key c]))
            (<[0 := Executing key c fn0 k0]> (start_threads key callers))))
    as (ms1 & Hrun1 & Hp1 & Hc1 & Hcnt1); [lia | lia | | | | ].
  { cbn [shared registry]. by rewrite lookup_insert_eq. }
  { eexists. cbn [shared calls]. split; [by apply list_lookup_middle|done]. }
  { apply (covers_insert (P_idle key) (P_upto key 1 c)
             (mkMsys s0 (start_threads key callers)) _ 0 fn0 k0 _ Hc0 E0).
    - unfold P_upto. by rewrite decide_True.
    - intros i' fn' k' t Hne' _ HP. unfold P_idle in HP. unfold P_upto.
      rewrite decide_False by done. by rewrite decide_False by lia. }
  destruct (covers_lookup _ _ _ _ _ Hc1 E0) as (t & Ht1 & HP).
  unfold P_upto in HP. rewrite decide_True in HP by done. subst t.
  destruct (fn0 (world (shared ms1))) as [[val err] w] eqn:Hfn.
  set (dups := default 0 (c_dups <$> calls (shared ms1) !! c)).
  destruct (wake_rest c val err (length cs0) 1
    (mkMsys (mkSys (if decide (registry (shared ms1) !! key = Some c)
                    then delete key (registry (shared ms1))
                    else registry (shared ms1))
               (<[c := mkCall val err true dups]> (calls (shared ms1))) w
               (events (shared ms1) ++ [EvExec key c]))
            (<[0 := Ready (k0 (val, err, bool_decide (0 < dups)))]> (threads ms1))))
    as (ms2 & Hrun2 & Hc2 & Hsh); [lia | lia | | | ].
  { destruct Hp1 as (cl & Hcl & _). eexists. cbn [shared calls].
    rewrite list_lookup_insert_eq by (by eapply lookup_lt_Some). done. }
  { eapply covers_insert; [exact Hc1 | exact E0 | ..].
    - unfold P_woken. rewrite decide_True by done. eauto.
    - intros i' fn' k' t Hne' Hi' HP. unfold P_upto in HP. unfold P_woken.
      apply lookup_lt_Some in Hi'.
      rewrite decide_False in * by done.
      rewrite decide_True in HP by lia. by rewrite decide_False by lia. }
  exists ms1, ms2. split_and!.
  - cbn [seq run]. unfold step at 1. cbn [threads shared] in *. rewrite Ht.
    by rewrite (sys_enter_fresh _ _ Hreg).
  - rewrite Hcnt1. cbn [shared events]. rewrite exec_count_snoc. simpl. lia.
  - intros i t Hti. specialize (Hc1 i). destruct (callers !! i) as [[fn k]|] eqn:Ei.
    + destruct Hc1 as (t' & Ht' & HP). rewrite Hti in Ht'.
      injection Ht' as <-. unfold P_upto in HP.
      destruct (decide (i = 0)); [by rewrite HP|].
      assert (i < length callers) by (by eapply lookup_lt_Some).
      rewrite decide_True in HP by lia. by rewrite HP.
    + by rewrite Hc1 in Hti.
  - cbn [seq run]. unfold step at 1. rewrite Ht1. unfold sys_exec.
    rewrite Hfn. fold dups. done.
  - intros i t Hti. specialize (Hc2 i). destruct (callers !! i) as [[fn k]|] eqn:Ei.
    + destruct Hc2 as (t' & Ht' & HP). rewrite Hti in Ht'.
      injection Ht' as <-. unfold P_woken in HP.
      destruct (decide (i = 0)).
      * destruct HP as [sh ->].
        destruct (callers_return _ _ _ (val, err, sh) Ei) as [x ->]. by eexists.
      * assert (i < length callers) by (by eapply lookup_lt_Some).
        rewrite decide_True in HP by lia. rewrite HP.
        destruct (callers_return _ _ _ (val, err, true) Ei) as [x ->]. by eexists.
    + by rewrite Hc2 in Hti.
Qed.
End Coalescing.

(** ** The one execution and the store *)

Lemma step_world_or_exec {R} i (ms ms' : msys R) :
  step i ms = Some ms' →
  world (shared ms') = world (shared ms) ∨
  ∃ key c fn k,
    threads ms !! i = Some (Executing key c fn k) ∧
    world (shared ms') = (fn (world (shared ms))).2 ∧
    events (shared ms') = events (shared ms) ++ [EvExec key c].
Proof.
  unfold step. intros Hs.
  destruct (threads ms !! i) as [[[r|key k|key fn k]|key c fn k|c k]|];
    simplify_eq.
  - by left.
  - left. unfold sys_enter in Hs.
    destruct (registry (shared ms) !! key); by simplify_eq.
  - right. exists key, c, fn, k. split; [done|]. unfold sys_exec in Hs.
    destruct (fn (world (shared ms))) as [[val err] w]. by simplify_eq.
  - left. destruct (sys_wait c (shared ms)); by simplify_eq.
Qed.

Section CoalescingWorld.
Context {R : Type}.
Variable key : string.
Variable callers : list (work * cont R).
Hypothesis callers_return :
  ∀ i fn k r, callers !! i = Some (fn, k) → ∃ x, k r = Ret x.

(** Before the first completion the store is as the callers found it. *)
Lemma run_before_completion_world sched : ∀ ms ms1,
  idle key callers ms ∨ (∃ j c, flight key callers j c ms) →
  run sched ms = Some ms1 →
  exec_count key (events (shared ms1)) = exec_count key (events (shared ms)) →
  world (shared ms1) = world (shared ms).
Proof.
  induction sched as [|i sched IH]; intros ms ms1 Hst Hrun Hcnt; simpl in Hrun.
  - by simplify_eq.
  - destruct (step i ms) as [ms'|] eqn:Hs; [|done].
    pose proof (exec_count_run key _ _ _ Hrun) as Hmono.
    assert (world (shared ms') = world (shared ms) ∧
            exec_count key (events (shared ms')) =
              exec_count key (events (shared ms)) ∧
            (idle key callers ms' ∨ ∃ j c, flight key callers j c ms'))
      as (Hw & Hc' & Hst').
    { destruct Hst as [Hidle | (j & c & Hfl)].
      - destruct (step_idle key callers _ _ _ Hidle Hs) as (c & Hfl & Hc').
        split_and!; [|done|right; eauto].
        destruct (step_world_or_exec _ _ _ Hs)
          as [Hw | (key' & c' & fn & k & Ht & _)]; [done|].
        destruct Hidle as [_ Hcov].
        destruct (covers_step callers _ _ _ _ Hcov Hs)
          as (fn' & k' & t & _ & Ht' & HP).
        unfold P_idle in HP. congruence.
      - destruct (step_flight key callers _ _ _ _ _ Hfl Hs)
          as [[Hfl' Hc'] | Hc']; [|lia].
        split_and!; [|done|right; eauto].
        destruct (step_world_or_exec _ _ _ Hs)
          as [Hw | (key' & c' & fn & k & Ht & _ & Hev)]; [done|].
        destruct Hfl as (_ & _ & Hcov).
        destruct (covers_step callers _ _ _ _ Hcov Hs)
          as (fn' & k' & t & _ & Ht' & HP).
        unfold P_flight in HP. destruct (decide (i = j)).
        + subst t. rewrite Ht in Ht'. injection Ht' as -> -> -> ->.
          rewrite Hev, exec_count_snoc in Hc'. simpl in Hc'.
          rewrite bool_decide_true in Hc' by done. lia.
        + destruct HP as [-> | ->]; congruence. }
    rewrite <- Hw. apply IH; [done..|lia].
Qed.

Lemma run_completed sched j c val err : ∀ ms ms2,
  completed callers j c val err ms → run sched ms = Some ms2 →
  completed callers j c val err ms2 ∧ shared ms2 = shared ms.
Proof.
  induction sched as [|i sched IH]; intros ms ms2 Hd Hrun; simpl in Hrun.
  - by simplify_eq.
  - destruct (step i ms) as [ms'|] eqn:Hs; [|done].
    destruct (step_completed callers callers_return _ _ _ _ _ _ _ Hd Hs)
      as [Hd' Hsh].
    destruct (IH _ _ Hd' Hrun) as [? ?]. split; [done|congruence].
Qed.

(** From the state where all have joined, the execution runs on the
    store as it is and leaves the store the run ends with. *)
Lemma run_after_entry_world sched j c : ∀ ms ms2,
  joined key callers j c ms →
  run sched ms = Some ms2 →
  (joined key callers j c ms2 ∧ ms2 = ms)
  ∨ ∃ fn k val err,
      callers !! j = Some (fn, k) ∧
      fn (world (shared ms)) = (val, err, world (shared ms2)) ∧
      completed callers j c val err ms2 ∧
      exec_count key (events (shared ms2)) =
        exec_count key (events (shared ms)) + 1.
Proof.
  destruct sched as [|i sched]; intros ms ms2 Hj Hrun; simpl in Hrun.
  - simplify_eq. by left.
  - destruct (step i ms) as [ms'|] eqn:Hs; [|done].
    destruct (step_joined key callers _ _ _ _ _ Hj Hs)
      as (fn & k & val & err & w & -> & Hi & Hfn & Hd & Hcnt).
    destruct (run_completed _ _ _ _ _ _ _ Hd Hrun) as [Hd2 Hsh].
    right. exists fn, k, val, err. rewrite Hsh. split_and!; [done| |done..].
    destruct (step_world_or_exec _ _ _ Hs)
      as [Hw | (key' & c' & fn' & k' & Ht & Hw & _)].
    + destruct Hj as [_ Hcov].
      destruct (covers_lookup callers _ _ _ _ _ Hcov Hi) as (t & Ht & HP).
      unfold P_joined in HP. rewrite decide_True in HP by done. subst t.
      unfold step in Hs. rewrite Ht in Hs. unfold sys_exec in Hs.
      rewrite Hfn in Hs. by simplify_eq.
    + destruct Hj as [_ Hcov].
      destruct (covers_lookup callers _ _ _ _ _ Hcov Hi) as (t & Ht' & HP).
      unfold P_joined in HP. rewrite decide_True in HP by done. subst t.
      rewrite Ht in Ht'. injection Ht' as -> -> -> ->.
      rewrite Hw, Hfn. done.
Qed.

(** Callers that are all inside [Do] before the first completion: the
    one execution runs on the store the callers started from and leaves
    the store the run ends with, and every continuation is resumed with
    the pair it produced. *)
Lemma coalesced_once_world s0 sched1 sched2 ms1 ms2 :
  callers ≠ [] →
  registry s0 !! key = None →
  run sched1 (mkMsys s0 (start_threads key callers)) = Some ms1 →
  exec_count key (events (shared ms1)) = exec_count key (events s0) →
  (∀ i t, threads ms1 !! i = Some t → inside_Do t = true) →
  run sched2 ms1 = Some ms2 →
  (∀ i t, threads ms2 !! i = Some t → is_Some (returned t)) →
  exec_count key (events (shared ms2)) = exec_count key (events s0) + 1 ∧
  ∃ j fnj kj val err,
    callers !! j = Some (fnj, kj) ∧
    fnj (world s0) = (val, err, world (shared ms2)) ∧
    (∀ i fn k, callers !! i = Some (fn, k) →
       ∃ sh, threads ms2 !! i = Some (Ready (k (val, err, sh)))).
Proof.
  intros Hne Hreg Hrun1 Hcnt1 Hin Hrun2 Hret.
  assert (∃ fn0 k0, callers !! 0 = Some (fn0, k0)) as (fn0 & k0 & E0).
  { clear -Hne. destruct callers as [|[fn k] cs]; [done|]. by exists fn, k. }
  pose proof (idle_start key callers s0 Hreg) as Hidle.
  pose proof (run_before_completion key callers _ _ _ (or_introl Hidle)
                Hrun1 Hcnt1) as Hst.
  pose proof (run_before_completion_world _ _ _ (or_introl Hidle)
                Hrun1 Hcnt1) as Hw1.
  cbn [shared] in Hw1.
  assert (∃ j c, joined key callers j c ms1) as (j & c & Hj).
  { destruct Hst as [[_ Hc] | (j & c & _ & Hp & Hc)].
    - destruct (covers_lookup callers _ _ 0 fn0 k0 Hc E0) as (t & Ht & HP).
      unfold P_idle in HP. subst t. by apply Hin in Ht.
    - exists j, c. split; [done|]. intros i. specialize (Hc i).
      destruct (callers !! i) as [[fn k]|]; [|done].
      destruct Hc as (t & Ht & HP). exists t. split; [done|].
      unfold P_flight in HP. unfold P_joined.
      destruct (decide (i = j)); [done|].
      destruct HP as [-> | ->]; [|done]. by apply Hin in Ht. }
  destruct (run_after_entry_world _ _ _ _ _ Hj Hrun2)
    as [[(_ & Hc) _] | (fn & k & val & err & Hi & Hfn & Hd & Hcnt)].
  - destruct (callers !! j) as [[fn k]|] eqn:E.
    + destruct (covers_lookup callers _ _ j fn k Hc E) as (t & Ht & HP).
      unfold P_joined in HP. rewrite decide_True in HP by done. subst t.
      apply Hret in Ht. by destruct Ht.
    + destruct (covers_lookup callers _ _ 0 fn0 k0 Hc E0) as (t & Ht & HP).
      unfold P_joined in HP. destruct (decide (0 = j)); subst t;
        apply Hret in Ht; by destruct Ht.
  - split; [lia|]. exists j, fn, k, val, err. destruct Hd as [_ Hc].
    split_and!; [done|by rewrite <- Hw1|].
    intros i fn' k' Hi'.
    destruct (covers_lookup callers _ _ i fn' k' Hc Hi') as (t & Ht & HP).
    unfold P_done in HP. destruct (decide (i = j)).
    + destruct HP as [sh ->]. eauto.
    + destruct HP as [-> | ->]; [|eauto].
      apply Hret in Ht. by destruct Ht.
Qed.


(** The execution of Call [c] is in the history once it has run. *)
Lemma run_after_entry_event sched j c : ∀ ms ms2,
  joined key callers j c ms →
  run sched ms = Some ms2 →
  ms2 = ms ∨ EvExec key c ∈ events (shared ms2).
Proof.
  destruct sched as [|i sched]; intros ms ms2 Hj Hrun; simpl in Hrun.
  - simplify_eq. by left.
  - destruct (step i ms) as [ms'|] eqn:Hs; [|done].
    destruct (step_joined key callers _ _ _ _ _ Hj Hs)
      as (fn & k & val & err & w & -> & Hi & Hfn & Hd & Hcnt).
    destruct (run_completed _ _ _ _ _ _ _ Hd Hrun) as [Hd2 Hsh].
    right. rewrite Hsh.
    destruct Hj as [_ Hcov].
    destruct (covers_lookup callers _ _ _ _ _ Hcov Hi) as (t & Ht & HP).
    unfold P_joined in HP. rewrite decide_True in HP by done. subst t.
    unfold step in Hs. rewrite Ht in Hs. unfold sys_exec in Hs.
    rewrite Hfn in Hs. simplify_eq. cbn [shared events].
    apply elem_of_app. right. by left.
Qed.

(** As [coalesced_once_world], with the Call the execution stored its
    result in: the Call is complete at the end of the run and holds the
    pair every continuation is resumed with. *)
Lemma coalesced_once_stored s0 sched1 sched2 ms1 ms2 :
  callers ≠ [] →
  registry s0 !! key = None →
  run sched1 (mkMsys s0 (start_threads key callers)) = Some ms1 →
  exec_count key (events (shared ms1)) = exec_count key (events s0) →
  (∀ i t, threads ms1 !! i = Some t → inside_Do t = true) →
  run sched2 ms1 = Some ms2 →
  (∀ i t, threads ms2 !! i = Some t → is_Some (returned t)) →
  exec_count key (events (shared ms2)) = exec_count key (events s0) + 1 ∧
  ∃ j fnj kj c cl,
    callers !! j = Some (fnj, kj) ∧
    fnj (world s0) = (c_val cl, c_err cl, world (shared ms2)) ∧
    EvExec key c ∈ events (shared ms2) ∧
    calls (shared ms2) !! c = Some cl ∧
    c_done cl = true ∧
    (∀ i fn k, callers !! i = Some (fn, k) →
       ∃ sh, threads ms2 !! i = Some (Ready (k (c_val cl, c_err cl, sh)))) ∧
    (∀ i, callers !! i = None → threads ms2 !! i = None).
Proof.
  intros Hne Hreg Hrun1 Hcnt1 Hin Hrun2 Hret.
  assert (∃ fn0 k0, callers !! 0 = Some (fn0, k0)) as (fn0 & k0 & E0).
  { clear -Hne. destruct callers as [|[fn k] cs]; [done|]. by exists fn, k. }
  pose proof (idle_start key callers s0 Hreg) as Hidle.
  pose proof (run_before_completion key callers _ _ _ (or_introl Hidle)
                Hrun1 Hcnt1) as Hst.
  pose proof (run_before_completion_world _ _ _ (or_introl Hidle)
                Hrun1 Hcnt1) as Hw1.
  cbn [shared] in Hw1.
  assert (∃ j c, joined key callers j c ms1) as (j & c & Hj).
  { destruct Hst as [[_ Hc] | (j & c & _ & Hp & Hc)].
    - destruct (covers_lookup callers _ _ 0 fn0 k0 Hc E0) as (t & Ht & HP).
      unfold P_idle in HP. subst t. by apply Hin in Ht.
    - exists j, c. split; [done|]. intros i. specialize (Hc i).
      destruct (callers !! i) as [[fn k]|]; [|done].
      destruct Hc as (t & Ht & HP). exists t. split; [done|].
      unfold P_flight in HP. unfold P_joined.
      destruct (decide (i = j)); [done|].
      destruct HP as [-> | ->]; [|done]. by apply Hin in Ht. }
  destruct (run_after_entry_world _ _ _ _ _ Hj Hrun2)
    as [[(_ & Hc) _] | (fn & k & val & err & Hi & Hfn & Hd & Hcnt)].
  - destruct (callers !! j) as [[fn k]|] eqn:E.
    + destruct (covers_lookup callers _ _ j fn k Hc E) as (t & Ht & HP).
      unfold P_joined in HP. rewrite decide_True in HP by done. subst t.
      apply Hret in Ht. by destruct Ht.
    + destruct (covers_lookup callers _ _ 0 fn0 k0 Hc E0) as (t & Ht & HP).
      unfold P_joined in HP. destruct (decide (0 = j)); subst t;
        apply Hret in Ht; by destruct Ht.
  - split; [lia|].
    destruct Hd as [(cl & Hcl & Hdone & Hval & Herr) Hc]. subst val err.
    exists j, fn, k, c, cl.
    split_and!; [done | by rewrite <- Hw1 | | done | done | |].
    + destruct (run_after_entry_event _ _ _ _ _ Hj Hrun2) as [-> | Hev];
        [lia | done].
    + intros i fn' k' Hi'.
      destruct (covers_lookup callers _ _ i fn' k' Hc Hi') as (t & Ht & HP).
      unfold P_done in HP. destruct (decide (i = j)).
      * destruct HP as [sh ->]. eauto.
      * destruct HP as [-> | ->]; [|eauto].
        apply Hret in Ht. by destruct Ht.
    + intros i Hi'. specialize (Hc i). by rewrite Hi' in Hc.
Qed.

End CoalescingWorld.

(** ** Callers of [ProccesWrapper] *)

Lemma all_threads_spec {R} (P : tstate R → bool) (ms : msys R) :
  all_threads P ms = true ↔ ∀ i t, threads ms !! i = Some t → P t = true.
Proof.
  unfold all_threads. rewrite forallb_forall. split.
  - intros H i t Ht. apply (H (i, t)).
    apply list_elem_of_In. by apply elem_of_map_to_list.
  - intros H [i t] Hin. apply list_elem_of_In, elem_of_map_to_list in Hin.
    by apply (H i).
Qed.

Lemma start_threads_goroutines single (cs : list caller) :
  start_threads (Key single) (Do_arguments <$> cs) = goroutines single cs.
Proof.
  unfold start_threads, goroutines. rewrite <- list_fmap_compose. reflexivity.
Qed.

Lemma Do_arguments_return (cs : list caller) (i : nat) fn k r :
  (Do_arguments <$> cs) !! i = Some (fn, k) → ∃ x, k r = Ret x.
Proof.
  rewrite list_lookup_fmap. destruct (cs !! i) as [c|]; simpl; [|done].
  intros [= <- <-]. destruct r as [[val err] sh].
  rewrite ProccesWrapper_ret_reply. eauto.
Qed.

Lemma ProccesWrapper_reply_T T val err :
  reply_T (ProccesWrapper_reply T val err) = T.
Proof. unfold ProccesWrapper_reply. by destruct (type_assert T val). Qed.

(** C1, as amended: of callers of [ProccesWrapper] for one key that are
    all inside [Do] before the first completion, exactly one runs its work
    function, once, on the store as the callers found it; the value and
    the error it produced are the ones stored in its Call, which is
    complete at the end; every caller's reply is formed from that stored
    pair, so that a caller whose type assertion on the stored value
    succeeds receives exactly the stored value and error; and callers of
    one type receive identical replies. *)
Theorem ProccesWrapper_coalesces single (cs : list caller) s0 sched1 sched2
    ms1 ms2 :
  cs ≠ [] →
  registry s0 !! Key single = None →
  run sched1 (mkMsys s0 (goroutines single cs)) = Some ms1 →
  exec_count (Key single) (events (shared ms1)) =
    exec_count (Key single) (events s0) →
  all_threads inside_Do ms1 = true →
  run sched2 ms1 = Some ms2 →
  all_threads has_returned ms2 = true →
  exec_count (Key single) (events (shared ms2)) =
    exec_count (Key single) (events s0) + 1 ∧
  ∃ j cj v err c cl,
    cs !! j = Some cj ∧
    caller_fn cj (world s0) = (v, err, world (shared ms2)) ∧
    EvExec (Key single) c ∈ events (shared ms2) ∧
    calls (shared ms2) !! c = Some cl ∧
    c_done cl = true ∧
    c_val cl = box (caller_T cj) v ∧
    c_err cl = err ∧
    (∀ i c', cs !! i = Some c' →
       reply_of ms2 i =
         Some (ProccesWrapper_reply (caller_T c') (c_val cl) (c_err cl)) ∧
       ∀ x, type_assert (caller_T c') (c_val cl) = Some x →
            reply_of ms2 i = Some (mkReply (caller_T c') x (c_err cl)) ∧
            carries (c_val cl) (c_err cl) (mkReply (caller_T c') x (c_err cl))) ∧
    (∀ i i' r r', reply_of ms2 i = Some r → reply_of ms2 i' = Some r' →
                  reply_T r = reply_T r' → r = r').
Proof.
  intros Hne Hreg Hrun1 Hcnt1 Hin Hrun2 Hret.
  destruct (coalesced_once_stored (Key single) (Do_arguments <$> cs)
              (Do_arguments_return cs) s0 sched1 sched2 ms1 ms2)
    as (Hcnt & j & fnj & kj & c & cl & Hj & Hfn & Hev & Hcl & Hdone & Hall
        & Hnone).
  { intros H. by apply fmap_nil_inv in H. }
  { done. }
  { by rewrite start_threads_goroutines. }
  { done. }
  { by apply all_threads_spec. }
  { done. }
  { intros i t Ht. rewrite all_threads_spec in Hret. apply Hret in Ht.
    unfold has_returned in Ht. by destruct (returned t). }
  split; [done|].
  rewrite list_lookup_fmap in Hj.
  destruct (cs !! j) as [cj|] eqn:Hcj; simpl in Hj; [|done].
  injection Hj as <- <-. unfold wrapperFn in Hfn.
  destruct (caller_fn cj (world s0)) as [[v err0] w0] eqn:Hcfn.
  injection Hfn as Hval Herr <-.
  assert (Hrep : ∀ i c', cs !! i = Some c' →
            reply_of ms2 i =
              Some (ProccesWrapper_reply (caller_T c') (c_val cl) (c_err cl))).
  { intros i c' Hc.
    destruct (Hall i (Do_arguments c').1 (Do_arguments c').2) as [sh Ht].
    { rewrite list_lookup_fmap, Hc. done. }
    assert ((Do_arguments c').2 (c_val cl, c_err cl, sh) =
            Ret (ProccesWrapper_reply (caller_T c') (c_val cl) (c_err cl)))
      as Hk by apply ProccesWrapper_ret_reply.
    rewrite Hk in Ht. unfold reply_of. by rewrite Ht. }
  exists j, cj, v, err0, c, cl. split_and!; [done..| |].
  - intros i c' Hc. split; [by apply Hrep|].
    intros x Hx. split.
    + rewrite (Hrep _ _ Hc). unfold ProccesWrapper_reply. by rewrite Hx.
    + split; [|done]. cbn [reply_T reply_val]. by apply type_assert_box_inv.
  - intros i i' r r' Hr Hr' HT.
    destruct (cs !! i) as [c1|] eqn:Hc.
    2:{ unfold reply_of in Hr. rewrite Hnone in Hr; [done|].
        by rewrite list_lookup_fmap, Hc. }
    destruct (cs !! i') as [c1'|] eqn:Hc'.
    2:{ unfold reply_of in Hr'. rewrite Hnone in Hr'; [done|].
        by rewrite list_lookup_fmap, Hc'. }
    rewrite (Hrep _ _ Hc) in Hr. rewrite (Hrep _ _ Hc') in Hr'.
    simplify_eq. rewrite !ProccesWrapper_reply_T in HT. by rewrite HT.
Qed.

Lemma ProccesWrapper_coalesces_witness :
  ∃ ms1 ms2,
    run [0; 1; 2]
      (mkMsys warm_sys
         (goroutines (mkSingleflight "singleflight:product:1") three_products))
      = Some ms1 ∧
    run [0; 1; 2] ms1 = Some ms2 ∧
    exec_count "singleflight:product:1" (events (shared ms2)) =
      exec_count "singleflight:product:1" (events warm_sys) + 1 ∧
    ∃ j cj v err c cl,
      three_products !! j = Some cj ∧
      caller_fn cj (world warm_sys) = (v, err, world (shared ms2)) ∧
      EvExec "singleflight:product:1" c ∈ events (shared ms2) ∧
      calls (shared ms2) !! c = Some cl ∧
      c_done cl = true ∧
      c_val cl = box (caller_T cj) v ∧
      c_err cl = err ∧
      (∀ i c', three_products !! i = Some c' →
         reply_of ms2 i =
           Some (ProccesWrapper_reply (caller_T c') (c_val cl) (c_err cl)) ∧
         ∀ x, type_assert (caller_T c') (c_val cl) = Some x →
              reply_of ms2 i = Some (mkReply (caller_T c') x (c_err cl)) ∧
              carries (c_val cl) (c_err cl)
                (mkReply (caller_T c') x (c_err cl))) ∧
      (∀ i i' r r', reply_of ms2 i = Some r → reply_of ms2 i' = Some r' →
                    reply_T r = reply_T r' → r = r').
Proof.
  eexists _, _. split; [vm_compute; reflexivity|].
  split; [vm_compute; reflexivity|].
  eapply (ProccesWrapper_coalesces (mkSingleflight "singleflight:product:1")
            three_products warm_sys [0; 1; 2] [0; 1; 2]);
    [discriminate | vm_compute; reflexivity ..].
Defined.

(** From every state with no Call registered for the key, the callers of
    [ProccesWrapper] can all enter [Do] before the first completion and
    then all return. *)
Lemma ProccesWrapper_round_robin single (cs : list caller) s0 :
  cs ≠ [] →
  registry s0 !! Key single = None →
  ∃ ms1 ms2,
    run (seq 0 (length cs)) (mkMsys s0 (goroutines single cs)) = Some ms1 ∧
    exec_count (Key single) (events (shared ms1)) =
      exec_count (Key single) (events s0) ∧
    all_threads inside_Do ms1 = true ∧
    run (seq 0 (length cs)) ms1 = Some ms2 ∧
    all_threads has_returned ms2 = true.
Proof.
  intros Hne Hreg.
  destruct (round_robin_completes (Key single) (Do_arguments <$> cs)
              (Do_arguments_return cs) s0)
    as (ms1 & ms2 & H1 & Hc & Hin & H2 & Hret); [|done|].
  { intros H. by apply fmap_nil_inv in H. }
  rewrite length_fmap, start_threads_goroutines in H1.
  rewrite length_fmap in H2.
  exists ms1, ms2. split_and!; [done | done | by apply all_threads_spec | done |].
  apply all_threads_spec. intros i t Ht. apply Hret in Ht.
  unfold has_returned. by destruct Ht as [x ->].
Qed.

(** C1, as stated, fails.  A caller for a [string] that joins the Call of
    a caller for an [int] does not receive the pair that Call stored; and
    callers for an [error] whose work function returns a nil value with
    an error do not receive that error. *)
Lemma ProccesWrapper_callers_miss_stored_pair :
  ¬ all_receive_stored_pair (mkSingleflight "product:1") int_and_string
      empty_sys [0; 1] [0; 1] ∧
  ¬ all_receive_stored_pair (mkSingleflight "product:1")
      [error_caller; error_caller] empty_sys [0; 1] [0; 1].
Proof.
  split; intros H.
  - destruct (run [0; 1]
                (mkMsys empty_sys
                   (goroutines (mkSingleflight "product:1") int_and_string)))
      as [ms1|] eqn:E1; [|vm_compute in E1; discriminate].
    destruct (run [0; 1] ms1) as [ms2|] eqn:E2.
    2:{ vm_compute in E1. injection E1 as <-. vm_compute in E2. discriminate. }
    destruct (H ms1 ms2 E1) as (_ & c & cl & _ & _ & Hall); try done.
    + vm_compute in E1. injection E1 as <-. vm_compute. reflexivity.
    + vm_compute in E1. injection E1 as <-. vm_compute. reflexivity.
    + vm_compute in E1. injection E1 as <-.
      vm_compute in E2. injection E2 as <-. vm_compute. reflexivity.
    + destruct (Hall 0 int_caller eq_refl) as (r0 & Hr0 & _ & He0).
      destruct (Hall 1 string_caller eq_refl) as (r1 & Hr1 & _ & He1).
      vm_compute in E1. injection E1 as <-.
      vm_compute in E2. injection E2 as <-.
      vm_compute in Hr0. vm_compute in Hr1.
      injection Hr0 as <-. injection Hr1 as <-. simpl in *. congruence.
  - destruct (run [0; 1]
                (mkMsys empty_sys
                   (goroutines (mkSingleflight "product:1")
                      [error_caller; error_caller])))
      as [ms1|] eqn:E1; [|vm_compute in E1; discriminate].
    destruct (run [0; 1] ms1) as [ms2|] eqn:E2.
    2:{ vm_compute in E1. injection E1 as <-. vm_compute in E2. discriminate. }
    destruct (H ms1 ms2 E1) as (_ & c & cl & _ & Hcl & Hall); try done.
    + vm_compute in E1. injection E1 as <-. vm_compute. reflexivity.
    + vm_compute in E1. injection E1 as <-. vm_compute. reflexivity.
    + vm_compute in E1. injection E1 as <-.
      vm_compute in E2. injection E2 as <-. vm_compute. reflexivity.
    + destruct (Hall 0 error_caller eq_refl) as (r0 & Hr0 & _ & He0).
      vm_compute in E1. injection E1 as <-.
      vm_compute in E2. injection E2 as <-.
      vm_compute in Hr0. injection Hr0 as <-.
      vm_compute in Hcl. simpl in He0.
      destruct c as [|c]; simpl in Hcl; [|done].
      injection Hcl as <-. simpl in He0. discriminate.
Qed.

(** ** The lease store *)

Lemma length_filter_impl {A} (P Q : A → Prop)
    `{!∀ x, Decision (P x)} `{!∀ x, Decision (Q x)} (l : list A) :
  (∀ x, P x → Q x) → length (filter P l) ≤ length (filter Q l).
Proof.
  intros HPQ. induction l as [|x l IH]; [done|].
  rewrite !filter_cons. destruct (decide (P x)) as [HP|HP].
  - rewrite decide_True by auto. simpl. lia.
  - destruct (decide (Q x)); simpl; lia.
Qed.

Lemma length_filter_filter {A} (P Q : A → Prop)
    `{!∀ x, Decision (P x)} `{!∀ x, Decision (Q x)} (l : list A) :
  length (filter P (filter Q l)) ≤ length (filter P l).
Proof.
  induction l as [|x l IH]; [done|].
  rewrite (filter_cons Q). destruct (decide (Q x)).
  - rewrite !filter_cons. destruct (decide (P x)); simpl; lia.
  - rewrite filter_cons. destruct (decide (P x)); simpl; lia.
Qed.

Lemma existsb_false_filter {A} (f : A → bool) (l : list A) :
  existsb f l = false → filter (λ x, f x = true) l = [].
Proof.
  induction l as [|x l IH]; [done|]. simpl.
  intros [Hx Hl]%orb_false_iff. rewrite filter_cons_False by congruence. auto.
Qed.

Lemma existsb_live name t (l : LockLease) (ls : list LockLease) :
  l ∈ ls → live name t l = true → existsb (live name t) ls = true.
Proof.
  intros Hin Hl. apply existsb_exists. exists l. split; [|done].
  by apply list_elem_of_In.
Qed.

Lemma unexpired_S t l : unexpired (S t) l = true → unexpired t l = true.
Proof.
  unfold unexpired. intros H%bool_decide_eq_true.
  apply bool_decide_eq_true. lia.
Qed.

Lemma live_S name t l : live name (S t) l = true → live name t l = true.
Proof.
  unfold live. intros [? ?]%andb_true_iff. apply andb_true_iff.
  split; [done|]. by apply unexpired_S.
Qed.

(** A successful [TryCreate] records the lease of the caller. *)
Lemma TryCreate_acquired name ownerToken ttl st :
  (TryCreate name ownerToken ttl st).1 = true →
  mkLease name ownerToken (now st + ttl)
    ∈ leases (TryCreate name ownerToken ttl st).2.
Proof.
  unfold TryCreate. destruct (existsb _ _); [done|]. intros _. simpl. left.
Qed.

(** Every step keeps at most one unexpired lease per name. *)
Lemma lease_step_live_count name op st :
  live_count name st ≤ 1 → live_count name (lease_step op st) ≤ 1.
Proof.
  unfold live_count. intros H. destruct op as [name' o ttl|name' o| |]; simpl.
  - unfold TryCreate. destruct (existsb _ _) eqn:E; [done|]. simpl.
    rewrite filter_cons. destruct (decide (live name (now st) _ = true)) as [Hl|];
      [|done].
    assert (name' = name) as ->.
    { unfold live in Hl. apply andb_true_iff in Hl as [Hn _].
      by apply bool_decide_eq_true in Hn. }
    rewrite (existsb_false_filter _ _ E). simpl. lia.
  - unfold DeleteIfOwner. destruct (existsb _ _); [|done]. simpl.
    etrans; [apply length_filter_filter|done].
  - etrans; [|exact H]. apply length_filter_impl. intros l. apply live_S.
  - etrans; [apply length_filter_filter|done].
Qed.

Lemma lease_run_live_count name ops : ∀ st,
  live_count name st ≤ 1 → live_count name (lease_run ops st) ≤ 1.
Proof.
  induction ops as [|op ops IH]; intros st H; [done|].
  simpl. apply IH. by apply lease_step_live_count.
Qed.

Lemma live_count_unique name st l1 l2 :
  live_count name st ≤ 1 →
  l1 ∈ leases st → l2 ∈ leases st →
  live name (now st) l1 = true → live name (now st) l2 = true →
  l1 = l2.
Proof.
  unfold live_count. intros Hc H1 H2 Hl1 Hl2.
  assert (l1 ∈ filter (λ l, live name (now st) l = true) (leases st)) as F1
    by (by apply list_elem_of_filter).
  assert (l2 ∈ filter (λ l, live name (now st) l = true) (leases st)) as F2
    by (by apply list_elem_of_filter).
  destruct (filter _ (leases st)) as [|x [|y l]]; simpl in Hc.
  - by apply elem_of_nil in F1.
  - apply list_elem_of_singleton in F1, F2. congruence.
  - lia.
Qed.

(** C3: in every state the lease store reaches by conditional creates,
    owner-checked deletes, the passing of time and evictions, at most one
    unexpired lease exists per name: two unexpired leases of a name are
    one lease, of one owner.  While it is unexpired, every other [Lock] of
    the name fails and leaves the store as it is. *)
Theorem lease_mutual_exclusion ops name :
  let st := lease_run ops empty_store in
  live_count name st ≤ 1 ∧
  (∀ l1 l2, l1 ∈ leases st → l2 ∈ leases st →
            live name (now st) l1 = true → live name (now st) l2 = true →
            l1 = l2 ∧ owner_token l1 = owner_token l2) ∧
  (∀ l ownerToken ttl,
     l ∈ leases st → live name (now st) l = true →
     Lock (lease_mutex ownerToken ttl name) st = (Some LockContention, st)).
Proof.
  simpl.
  assert (live_count name (lease_run ops empty_store) ≤ 1) as Hc.
  { apply lease_run_live_count. unfold live_count. simpl. lia. }
  split_and!; [done| |].
  - intros l1 l2 H1 H2 Hl1 Hl2.
    assert (l1 = l2) as -> by (by eapply live_count_unique). done.
  - intros l o ttl Hin Hl. simpl. unfold TryCreate.
    by rewrite (existsb_live _ _ _ _ Hin Hl).
Qed.

Lemma lease_mutual_exclusion_witness :
  Lock (lease_mutex "B" 2 "acct:42")
       (lease_run [OpLock "acct:42" "A" 2; OpTick] empty_store)
  = (Some LockContention,
     lease_run [OpLock "acct:42" "A" 2; OpTick] empty_store).
Proof.
  pose proof (lease_mutual_exclusion [OpLock "acct:42" "A" 2; OpTick]
                "acct:42") as (_ & _ & H).
  apply (H (mkLease "acct:42" "A" 2)); [left | vm_compute; reflexivity].
Defined.

(** ** [AddToBankAccountWithMutex] *)

(** C10: once [Lock] has succeeded the function returns nil, whatever the
    deferred [Unlock] reports: its released flag and its error are dropped. *)
Theorem AddToBankAccountWithMutex_swallows_Unlock {S : Type} accountId amount
    (redSync : Redsync S) st st1 ok uerr st2 :
  let mutex := NewMutex redSync ("add-account:{" +:+ accountId +:+ "}") in
  Lock mutex st = (None, st1) →
  Unlock mutex st1 = (ok, uerr, st2) →
  AddToBankAccountWithMutex accountId amount redSync st = (None, st2).
Proof.
  simpl. intros HL HU. unfold AddToBankAccountWithMutex. by rewrite HL, HU.
Qed.

Lemma AddToBankAccountWithMutex_swallows_Unlock_witness :
  AddToBankAccountWithMutex "42" 100 (mkRedsync (λ _, stuck_mutex)) tt
  = (None, tt).
Proof.
  apply (AddToBankAccountWithMutex_swallows_Unlock "42" 100%Z
           (mkRedsync (λ _, stuck_mutex)) tt tt false
           (Some (foreign "redsync: failed to unlock")) tt);
    reflexivity.
Defined.

(** The error returned is the error of [Lock]. *)
Lemma AddToBankAccountWithMutex_returns_Lock_error {S : Type} accountId amount
    (redSync : Redsync S) st :
  (AddToBankAccountWithMutex accountId amount redSync st).1 =
  (Lock (NewMutex redSync ("add-account:{" +:+ accountId +:+ "}")) st).1.
Proof.
  unfold AddToBankAccountWithMutex.
  destruct (Lock _ st) as [[e|] st1]; [done|].
  by destruct (Unlock _ st1) as [[ok uerr] st2].
Qed.

(** Over the lease store: a lease that has expired by the time of the
    deferred [Unlock] is not released, and the caller is told nothing. *)
Example AddToBankAccountWithMutex_expired_lease :
  Unlock (lease_mutex "A" 0 "add-account:{42}")
    (Lock (lease_mutex "A" 0 "add-account:{42}") empty_store).2
  = (false, Some LockOwnershipMismatch,
     mkStore [mkLease "add-account:{42}" "A" 0] 0) ∧
  AddToBankAccountWithMutex "42" 100 (lease_redsync "A" 0) empty_store
  = (None, mkStore [mkLease "add-account:{42}" "A" 0] 0).
Proof. split; reflexivity. Qed.

(** * More of the package *)

(** ** [Forget] *)

(** X1: [Forget] deregisters exactly the keys it is given, and not the key
    of its receiver unless that is among them; with no keys it does
    nothing.  The Calls themselves and the store are left alone. *)
Theorem Forget_deregisters single keys s :
  (run_seq (Forget single keys) s).1 = Returned tt ∧
  (∀ key, registry (run_seq (Forget single keys) s).2 !! key =
            if decide (key ∈ keys) then None else registry s !! key) ∧
  calls (run_seq (Forget single keys) s).2 = calls s ∧
  world (run_seq (Forget single keys) s).2 = world s ∧
  events (run_seq (Forget single keys) s).2 = events s ++ (EvForget <$> keys).
Proof.
  revert s. induction keys as [|k keys IH]; intros s.
  - simpl. split_and!; try done. by rewrite app_nil_r.
  - cbn [Forget run_seq]. destruct (IH (sys_forget k s)) as (H1 & H2 & H3 & H4 & H5).
    split_and!; [done| |done|done|].
    + intros key. rewrite H2. cbn [sys_forget registry].
      destruct (decide (key = k)) as [->|Hne].
      * rewrite (decide_True (P := k ∈ k :: keys)) by left.
        rewrite lookup_delete_eq. by destruct (decide (k ∈ keys)).
      * rewrite lookup_delete_ne by done.
        destruct (decide (key ∈ keys)) as [Hin|Hin].
        -- rewrite decide_True; [done|]. by right.
        -- rewrite decide_False; [done|]. by intros [?|?]%elem_of_cons.
    + rewrite H5. cbn [sys_forget events]. by rewrite <- app_assoc.
Qed.

(** ** [getProductFromCache] and a Call in flight *)

Section GetProductMore.

Variable json_Unmarshal : string → Product + error.

Lemma after_forget_exec_count productID currIdx s key :
  exec_count key (events (after_forget productID currIdx s)) =
  exec_count key (events s).
Proof.
  unfold after_forget. destruct (_ =? _)%Z; [|done].
  cbn [sys_forget events]. rewrite exec_count_app, exec_count_one.
  simpl. lia.
Qed.


(** X3: the group keeps no result: a call made after another has
    returned runs the lookup again, so two calls in a row send two GETs. *)
Theorem getProductFromCache_again productID currIdx currIdx' s :
  registry s !! product_flight_key productID = None ∨ currIdx = 2%Z →
  let r := run_seq (getProductFromCache json_Unmarshal productID currIdx) s in
  let r' := run_seq (getProductFromCache json_Unmarshal productID currIdx') r.2 in
  r'.1 = Returned (getProductFromCache_ret
                     (getProductFromCache_fn json_Unmarshal productID
                        (world r.2)).1) ∧
  cmds (world r'.2) =
    cmds (world s) ++ [GET (product_cache_key productID);
                       GET (product_cache_key productID)] ∧
  kv (world r'.2) = kv (world s) ∧
  exec_count (product_flight_key productID) (events r'.2) =
    exec_count (product_flight_key productID) (events s) + 2.
Proof.
  intros Hreg. cbv zeta.
  pose proof (run_seq_getProductFromCache_start json_Unmarshal productID
                currIdx s Hreg) as Hrun.
  pose proof (getProductFromCache_fn_world json_Unmarshal productID (world s))
    as [Hkv Hcmds].
  cbv zeta in Hrun.
  destruct (getProductFromCache_fn json_Unmarshal productID (world s))
    as [[v err] w].
  rewrite Hrun. cbn [snd fst] in *.
  set (s1 := mkSys _ _ w _).
  assert (registry s1 !! product_flight_key productID = None) as Hreg1
    by (by apply after_forget_fresh).
  pose proof (run_seq_getProductFromCache_start json_Unmarshal productID
                currIdx' s1 (or_introl Hreg1)) as Hrun'.
  pose proof (getProductFromCache_fn_world json_Unmarshal productID (world s1))
    as [Hkv' Hcmds'].
  cbv zeta in Hrun'.
  destruct (getProductFromCache_fn json_Unmarshal productID (world s1))
    as [[v' err'] w'].
  rewrite Hrun'. subst s1. cbn [snd fst world events] in *.
  split_and!; [done | | congruence | ].
  - rewrite Hcmds', Hcmds. by rewrite <- app_assoc.
  - rewrite exec_count_start_exec, after_forget_exec_count. cbn [events].
    rewrite exec_count_start_exec, after_forget_exec_count. lia.
Qed.

(** X4: what the call that runs the lookup can return.  A product comes
    with a nil error and is the decoded cache value; nil with nil means
    the store reported [redis.Nil]; an error comes with a nil product,
    keeps its cause for [errors.Is], and its text is the cause's behind
    the prefixes of the two wrappers. *)
Theorem getProductFromCache_outcomes productID currIdx s v err :
  registry s !! product_flight_key productID = None ∨ currIdx = 2%Z →
  (run_seq (getProductFromCache json_Unmarshal productID currIdx) s).1 =
    Returned (v, err) →
  match v, err with
  | Some product, None =>
      ∃ raw, (rdb_Get (product_cache_key productID) (world s)).1 = (raw, None) ∧
             json_Unmarshal raw = inl product
  | None, None =>
      ∃ e, (rdb_Get (product_cache_key productID) (world s)).1.2 = Some e ∧
           errors_Is e redis_Nil = true
  | None, Some e' =>
      ∃ cause,
        errors_Is e' cause = true ∧
        ((rdb_Get (product_cache_key productID) (world s)).1.2 = Some cause ∧
         errors_Is cause redis_Nil = false ∧
         Error e' = "Failed to get product from cache: " +:+ Error cause
         ∨
         (∃ raw,
            (rdb_Get (product_cache_key productID) (world s)).1 = (raw, None) ∧
            json_Unmarshal raw = inr cause) ∧
         Error e' = "Failed to get product from cache: Failed to unmarshal product: "
                     +:+ Error cause)
  | Some _, Some _ => False
  end.
Proof.
  intros Hreg.
  pose proof (run_seq_getProductFromCache_start json_Unmarshal productID
                currIdx s Hreg) as Hrun.
  cbv zeta in Hrun. unfold getProductFromCache_fn in Hrun.
  unfold product_cache_key.
  destruct (rdb_Get _ (world s)) as [[val e] w]. cbn [fst snd].
  destruct e as [e|].
  - destruct (errors_Is e redis_Nil) eqn:Eis; rewrite Hrun; cbn [fst];
      intros [= <- <-].
    + eauto.
    + exists e. split.
      * simpl. destruct (decide (withMessage e _ = e)); [done|].
        unfold errors_Is. destruct e; by rewrite decide_True.
      * left. done.
  - destruct (json_Unmarshal val) as [product|e] eqn:Edec; rewrite Hrun;
      cbn [fst]; intros [= <- <-].
    + eauto.
    + exists e. split.
      * simpl. destruct (decide (_ = e)); [done|].
        destruct (decide (_ = e)); [done|].
        unfold errors_Is. destruct e; by rewrite decide_True.
      * right. split; [eauto|done].
Qed.

End GetProductMore.


Lemma getProductFromCache_again_witness :
  cmds (world (run_seq (getProductFromCache sample_Unmarshal 1 0)
                 (run_seq (getProductFromCache sample_Unmarshal 1 0)
                    warm_sys).2).2) =
  cmds (world warm_sys) ++ [GET (product_cache_key 1); GET (product_cache_key 1)].
Proof.
  apply (getProductFromCache_again sample_Unmarshal 1%Z 0%Z 0%Z warm_sys).
  left. vm_compute. reflexivity.
Defined.

Lemma getProductFromCache_outcomes_witness :
  ∃ raw, (rdb_Get (product_cache_key 1) (world warm_sys)).1 = (raw, None) ∧
         sample_Unmarshal raw = inl (mkProduct 1 "Product 1").
Proof.
  apply (getProductFromCache_outcomes sample_Unmarshal 1%Z 0%Z warm_sys
           (Some (mkProduct 1 "Product 1")) None);
    [left|]; vm_compute; reflexivity.
Defined.

(** ** Goroutines that only read *)

Lemma step_reads_only {R} i (ms ms' : msys R) :
  (∀ j t, threads ms !! j = Some t → thread_reads_only t) →
  step i ms = Some ms' →
  (∀ j t, threads ms' !! j = Some t → thread_reads_only t) ∧
  kv (world (shared ms')) = kv (world (shared ms)) ∧
  conn_err (world (shared ms')) = conn_err (world (shared ms)) ∧
  ∃ gets, cmds (world (shared ms')) = cmds (world (shared ms)) ++ gets ∧
          Forall is_GET gets.
Proof.
  intros Hall Hs. unfold step in Hs.
  destruct (threads ms !! i) as [t|] eqn:Ht; [|done].
  pose proof (Hall i t Ht) as Hi.
  assert (Hins : ∀ s' t', thread_reads_only t' →
            ∀ j t0, threads (mkMsys s' (<[i := t']> (threads ms))) !! j = Some t0 →
                    thread_reads_only t0).
  { intros s' t' Ht' j t0. cbn [threads].
    destruct (decide (i = j)) as [->|Hne].
    - rewrite lookup_insert_eq. by intros [= <-].
    - rewrite lookup_insert_ne by done. apply Hall. }
  assert (Hnil : ∀ w : World, ∃ gets, cmds w = cmds w ++ gets ∧ Forall is_GET gets).
  { intros w. exists []. by rewrite app_nil_r. }
  destruct t as [[r|key k|key fn k]|key c fn k|c k]; simpl in Hi.
  - done.
  - simplify_eq. split; [by apply Hins|]. cbn [shared sys_forget world]. eauto.
  - destruct Hi as [Hfn Hk]. unfold sys_enter in Hs.
    destruct (registry (shared ms) !! key); simplify_eq;
      (split; [by apply Hins|]); cbn [shared world]; eauto.
  - destruct Hi as [Hfn Hk]. unfold sys_exec in Hs.
    specialize (Hfn (world (shared ms))).
    destruct (fn (world (shared ms))) as [[val err] w]. simplify_eq.
    split; [apply Hins; apply Hk|]. cbn [shared world]. done.
  - destruct (sys_wait c (shared ms)) as [r|]; simplify_eq.
    split; [apply Hins; apply Hi|]. cbn [shared]. eauto.
Qed.

(** Goroutines whose work functions only read leave the key-value map as
    it was, in every interleaving, and send nothing but GETs. *)
Lemma run_reads_only {R} sched : ∀ (ms ms' : msys R),
  (∀ j t, threads ms !! j = Some t → thread_reads_only t) →
  run sched ms = Some ms' →
  kv (world (shared ms')) = kv (world (shared ms)) ∧
  conn_err (world (shared ms')) = conn_err (world (shared ms)) ∧
  ∃ gets, cmds (world (shared ms')) = cmds (world (shared ms)) ++ gets ∧
          Forall is_GET gets.
Proof.
  induction sched as [|i sched IH]; intros ms ms' Hall Hrun; simpl in Hrun.
  - simplify_eq. split_and!; [done..|]. exists []. by rewrite app_nil_r.
  - destruct (step i ms) as [ms1|] eqn:Hs; [|done].
    destruct (step_reads_only _ _ _ Hall Hs) as (Hall1 & Hkv & Hce & g1 & Hc1 & Hg1).
    destruct (IH _ _ Hall1 Hrun) as (Hkv' & Hce' & g2 & Hc2 & Hg2).
    split_and!; [congruence..|]. exists (g1 ++ g2).
    split; [by rewrite Hc2, Hc1, <- app_assoc | by apply Forall_app].
Qed.

Section ProductGoroutines.

Variable json_Unmarshal : string → Product + error.

Lemma getProductFromCache_unfold productID currIdx :
  getProductFromCache json_Unmarshal productID currIdx =
  if (currIdx =? 2)%Z
  then Group_Forget (product_flight_key productID)
         (getProductFromCache_do json_Unmarshal productID)
  else getProductFromCache_do json_Unmarshal productID.
Proof. unfold getProductFromCache. by destruct (_ =? _)%Z. Qed.

Lemma getProductFromCache_do_unfold productID :
  getProductFromCache_do json_Unmarshal productID =
  Group_Do (product_flight_key productID)
    (wrapperFn TPtrProduct (getProductFromCache_fn json_Unmarshal productID))
    getProductFromCache_cont.
Proof. reflexivity. Qed.

Lemma getProductFromCache_cont_Ret r :
  ∃ x, getProductFromCache_cont r = Ret x.
Proof.
  destruct r as [[res err] sh]. unfold getProductFromCache_cont. simpl.
  destruct (type_assert TPtrProduct res); simpl; [destruct err|]; eauto.
Qed.

Lemma getProductFromCache_fn_reads productID :
  reads (wrapperFn TPtrProduct (getProductFromCache_fn json_Unmarshal productID)).
Proof.
  intros w. unfold wrapperFn.
  pose proof (getProductFromCache_fn_world json_Unmarshal productID w)
    as [Hkv Hcmds].
  assert (conn_err (getProductFromCache_fn json_Unmarshal productID w).2
          = conn_err w) as Hce.
  { unfold getProductFromCache_fn, rdb_Get.
    destruct (conn_err w) as [e|] eqn:E; simpl.
    - by destruct (errors_Is e redis_Nil).
    - destruct (kv w !! _) as [val|]; simpl; [|done].
      by destruct (json_Unmarshal val). }
  destruct (getProductFromCache_fn json_Unmarshal productID w) as [[v err] w'].
  simpl in *. split_and!; [done..|]. eexists. split; [done|].
  by repeat constructor.
Qed.

Lemma getProductFromCache_reads_only productID currIdx :
  reads_only (getProductFromCache json_Unmarshal productID currIdx).
Proof.
  rewrite getProductFromCache_unfold, getProductFromCache_do_unfold.
  assert (reads_only
            (Group_Do (product_flight_key productID)
               (wrapperFn TPtrProduct
                  (getProductFromCache_fn json_Unmarshal productID))
               getProductFromCache_cont)) as H.
  { split; [apply getProductFromCache_fn_reads|]. intros r.
    by destruct (getProductFromCache_cont_Ret r) as [x ->]. }
  by destruct (_ =? _)%Z.
Qed.

Lemma product_goroutines_lookup productID idxs j t :
  product_goroutines json_Unmarshal productID idxs !! j = Some t →
  ∃ idx, t = Ready (getProductFromCache json_Unmarshal productID idx).
Proof.
  unfold product_goroutines. rewrite lookup_map_seq_0, list_lookup_fmap.
  destruct (idxs !! j) as [idx|]; simpl; [|done]. intros [= <-]. eauto.
Qed.

(** X5: however many goroutines call [getProductFromCache], with
    whatever indices and however they interleave, the key-value map of
    the store stays as it was and the only commands sent are GETs. *)
Theorem product_goroutines_never_write productID idxs s0 sched ms :
  run sched (mkMsys s0 (product_goroutines json_Unmarshal productID idxs))
    = Some ms →
  kv (world (shared ms)) = kv (world s0) ∧
  ∃ gets, cmds (world (shared ms)) = cmds (world s0) ++ gets ∧
          Forall is_GET gets.
Proof.
  intros Hrun.
  assert (∀ j t,
            threads (mkMsys s0 (product_goroutines json_Unmarshal productID idxs))
              !! j = Some t → thread_reads_only t) as Hall.
  { intros j t Ht. cbn [threads] in Ht.
    apply product_goroutines_lookup in Ht as [idx ->].
    apply getProductFromCache_reads_only. }
  by destruct (run_reads_only sched _ _ Hall Hrun) as (Hkv & _ & Hg).
Qed.

(** *** When the cache holds the product *)

Variable productID : Z.
Variable raw : string.
Variable product : Product.
Hypothesis decodes : json_Unmarshal raw = inl product.

Lemma getProductFromCache_fn_hit w :
  cache_holds productID raw w →
  wrapperFn TPtrProduct (getProductFromCache_fn json_Unmarshal productID) w =
    (Some (DPtrProduct (Some product)), None,
     sent (GET (product_cache_key productID)) w).
Proof.
  intros [Hkv Hce]. unfold wrapperFn, getProductFromCache_fn, rdb_Get.
  fold (product_cache_key productID). by rewrite Hce, Hkv, decodes.
Qed.

Lemma getProductFromCache_cont_hit sh :
  getProductFromCache_cont (Some (DPtrProduct (Some product)), None, sh) =
  Ret (Some product, None).
Proof. reflexivity. Qed.

Lemma product_inv_insert ms s' i t' :
  product_inv json_Unmarshal productID raw product ms →
  cache_holds productID raw (world s') →
  calls_hold product s' →
  product_thread json_Unmarshal productID product t' →
  product_inv json_Unmarshal productID raw product (mkMsys s' (<[i := t']> (threads ms))).
Proof.
  intros (_ & _ & Hth) Hw Hc Ht'. split_and!; [done..|].
  intros j t. cbn [threads]. destruct (decide (i = j)) as [->|Hne].
  - rewrite lookup_insert_eq. by intros [= <-].
  - rewrite lookup_insert_ne by done. apply Hth.
Qed.

Lemma calls_hold_enter key s :
  calls_hold product s → calls_hold product (sys_enter key s).2.
Proof.
  intros Hc c cl. unfold sys_enter.
  destruct (registry s !! key) as [c0|]; cbn [snd calls].
  - destruct (decide (c = c0)) as [->|Hne].
    + rewrite list_lookup_alter_eq.
      destruct (calls s !! c0) as [cl0|] eqn:E; simpl; [|done].
      intros [= <-]. simpl. exact (Hc c0 cl0 E).
    + rewrite list_lookup_alter_ne by done. apply Hc.
  - intros [Hl | [_ Hl]]%lookup_app_Some; [by eapply Hc|].
    destruct (c - length (calls s)); simpl in Hl; [|done].
    by injection Hl as <-.
Qed.

Lemma product_inv_step i ms ms' :
  product_inv json_Unmarshal productID raw product ms → step i ms = Some ms' → product_inv json_Unmarshal productID raw product ms'.
Proof.
  intros Hinv Hs. pose proof Hinv as (Hw & Hc & Hth).
  unfold step in Hs. destruct (threads ms !! i) as [t|] eqn:Ht; [|done].
  destruct (Hth i t Ht) as [[idx ->] | [-> | [[c ->] | [[c ->] | ->]]]].
  - rewrite getProductFromCache_unfold in Hs.
    destruct (idx =? 2)%Z.
    + simplify_eq. apply product_inv_insert; [done..| |].
      * done.
      * right. by left.
    + rewrite getProductFromCache_do_unfold in Hs.
      pose proof (calls_hold_enter (product_flight_key productID) _ Hc) as Hc'.
      assert (world (sys_enter (product_flight_key productID) (shared ms)).2
              = world (shared ms)) as Hw'.
      { unfold sys_enter. by destruct (registry _ !! _). }
      destruct (sys_enter _ (shared ms)) as [[c|c] s1]; simplify_eq;
        cbn [snd] in *; (apply product_inv_insert; [done|by rewrite Hw'|done|]).
      * right. right. left. eauto.
      * right. right. right. left. eauto.
  - rewrite getProductFromCache_do_unfold in Hs.
    pose proof (calls_hold_enter (product_flight_key productID) _ Hc) as Hc'.
    assert (world (sys_enter (product_flight_key productID) (shared ms)).2
            = world (shared ms)) as Hw'.
    { unfold sys_enter. by destruct (registry _ !! _). }
    destruct (sys_enter _ (shared ms)) as [[c|c] s1]; simplify_eq;
      cbn [snd] in *; (apply product_inv_insert; [done|by rewrite Hw'|done|]).
    + right. right. left. eauto.
    + right. right. right. left. eauto.
  - unfold sys_exec in Hs. rewrite (getProductFromCache_fn_hit _ Hw) in Hs.
    simplify_eq. apply product_inv_insert; [done| | |].
    + cbn [world]. destruct Hw as [Hkv Hce]. by split.
    + intros c' cl. cbn [calls].
      destruct (decide (c = c')) as [->|Hne].
      * intros Hl Hd.
        destruct (decide (c' < length (calls (shared ms)))) as [Hlt|Hge].
        -- rewrite list_lookup_insert_eq in Hl by done. by injection Hl as <-.
        -- rewrite list_insert_ge in Hl by lia. by eapply Hc.
      * rewrite list_lookup_insert_ne by done. apply Hc.
    + rewrite getProductFromCache_cont_hit. by repeat right.
  - unfold sys_wait in Hs.
    destruct (calls (shared ms) !! c) as [cl|] eqn:Hcl; [|done].
    destruct (c_done cl) eqn:Hd; [|done]. simplify_eq.
    destruct (Hc c cl Hcl Hd) as [-> ->].
    apply product_inv_insert; [done..|].
    rewrite getProductFromCache_cont_hit. by repeat right.
  - done.
Qed.

Lemma product_inv_run sched : ∀ ms ms',
  product_inv json_Unmarshal productID raw product ms → run sched ms = Some ms' → product_inv json_Unmarshal productID raw product ms'.
Proof.
  induction sched as [|i sched IH]; intros ms ms' Hinv Hrun; simpl in Hrun.
  - by simplify_eq.
  - destruct (step i ms) as [ms1|] eqn:Hs; [|done].
    eapply IH; [|done]. by eapply product_inv_step.
Qed.

(** X6: when the cache holds a value that decodes to the product and the
    connection works, every goroutine that calls [getProductFromCache]
    for it and returns, returns the product and a nil error: whatever
    the indices and the interleaving, and whether it ran the lookup or
    joined the Call of another. *)
Theorem product_goroutines_get_product idxs s0 sched ms i r :
  kv (world s0) !! product_cache_key productID = Some raw →
  conn_err (world s0) = None →
  calls s0 = [] →
  run sched (mkMsys s0 (product_goroutines json_Unmarshal productID idxs))
    = Some ms →
  reply_of ms i = Some r →
  r = (Some product, None).
Proof.
  intros Hkv Hce Hcalls Hrun Hr.
  assert (product_inv json_Unmarshal productID raw product ms) as (_ & _ & Hth).
  { eapply product_inv_run; [|done]. split_and!.
    - done.
    - intros c cl. cbn [shared]. by rewrite Hcalls.
    - intros j t Ht. cbn [threads] in Ht.
      apply product_goroutines_lookup in Ht as [idx ->]. left. eauto. }
  unfold reply_of in Hr. destruct (threads ms !! i) as [t|] eqn:Ht; [|done].
  simpl in Hr.
  destruct (Hth i t Ht) as [[idx ->] | [-> | [[c ->] | [[c ->] | ->]]]];
    simpl in Hr; try done.
  - rewrite getProductFromCache_unfold in Hr. by destruct (idx =? 2)%Z.
  - by injection Hr as <-.
Qed.

End ProductGoroutines.

Lemma product_goroutines_never_write_witness :
  ∃ ms,
    run main_schedule
      (mkMsys warm_sys (product_goroutines sample_Unmarshal 1 main_indices))
      = Some ms ∧
    all_threads has_returned ms = true ∧
    kv (world (shared ms)) = kv (world warm_sys).
Proof.
  eexists. split; [vm_compute; reflexivity|]. split; [vm_compute; reflexivity|].
  eapply (product_goroutines_never_write sample_Unmarshal 1%Z main_indices
            warm_sys main_schedule).
  vm_compute. reflexivity.
Defined.

Lemma product_goroutines_get_product_witness :
  ∃ ms r,
    run main_schedule
      (mkMsys warm_sys (product_goroutines sample_Unmarshal 1 main_indices))
      = Some ms ∧
    reply_of ms 2 = Some r ∧
    r = (Some (mkProduct 1 "Product 1"), None).
Proof.
  eexists _, _. split; [vm_compute; reflexivity|].
  split; [vm_compute; reflexivity|].
  eapply (product_goroutines_get_product sample_Unmarshal 1%Z product1_json
            (mkProduct 1 "Product 1") eq_refl main_indices warm_sys
            main_schedule _ 2);
    vm_compute; reflexivity.
Defined.

Lemma all_threads_returned {R} (ms : msys R) :
  all_threads has_returned ms = true →
  ∀ i t, threads ms !! i = Some t → is_Some (returned t).
Proof.
  intros H i t Ht. rewrite all_threads_spec in H. apply H in Ht.
  unfold has_returned in Ht. by destruct (returned t).
Qed.

Lemma returned_all_threads {R} (ms : msys R) :
  (∀ i t, threads ms !! i = Some t → is_Some (returned t)) →
  all_threads has_returned ms = true.
Proof.
  intros H. apply all_threads_spec. intros i t Ht. apply H in Ht.
  unfold has_returned. by destruct Ht as [x ->].
Qed.

(** ** Callers of one type *)

(** X7: when all callers of [ProccesWrapper] for a key have the same type
    [T] and it is not an interface type, the claim of coalescing holds as
    it reads: the work function of one caller runs once, on the store as
    the callers found it, and every caller receives exactly the value and
    the error it produced. *)
Theorem ProccesWrapper_coalesces_same_type T single
    (fns : list (World → denote T * option error * World))
    s0 sched1 sched2 ms1 ms2 :
  is_interface T = false →
  fns ≠ [] →
  registry s0 !! Key single = None →
  run sched1 (mkMsys s0 (goroutines single (mkCaller T <$> fns))) = Some ms1 →
  exec_count (Key single) (events (shared ms1)) =
    exec_count (Key single) (events s0) →
  all_threads inside_Do ms1 = true →
  run sched2 ms1 = Some ms2 →
  all_threads has_returned ms2 = true →
  exec_count (Key single) (events (shared ms2)) =
    exec_count (Key single) (events s0) + 1 ∧
  ∃ j fn v err,
    fns !! j = Some fn ∧
    fn (world s0) = (v, err, world (shared ms2)) ∧
    ∀ i, i < length fns → reply_of ms2 i = Some (mkReply T v err).
Proof.
  intros HT Hne Hreg Hrun1 Hcnt1 Hin Hrun2 Hret.
  destruct (coalesced_once_world (Key single)
              (Do_arguments <$> (mkCaller T <$> fns))
              (Do_arguments_return _) s0 sched1 sched2 ms1 ms2)
    as (Hcnt & j & fnj & kj & val & err & Hj & Hfn & Hall).
  { intros H. apply fmap_nil_inv in H. by apply fmap_nil_inv in H. }
  { done. }
  { by rewrite start_threads_goroutines. }
  { done. }
  { by apply all_threads_spec. }
  { done. }
  { by apply all_threads_returned. }
  split; [done|].
  rewrite !list_lookup_fmap in Hj.
  destruct (fns !! j) as [fn|] eqn:Hfj; simpl in Hj; [|done].
  injection Hj as <- <-. unfold wrapperFn in Hfn. simpl in Hfn.
  destruct (fn (world s0)) as [[v err0] w0] eqn:Hcfn.
  injection Hfn as <- <- <-.
  exists j, fn, v, err0. split_and!; [done..|].
  intros i Hi. destruct (lookup_lt_is_Some_2 fns i Hi) as [fn' Hfi].
  destruct (Hall i (Do_arguments (mkCaller T fn')).1
              (Do_arguments (mkCaller T fn')).2) as [sh Ht].
  { rewrite !list_lookup_fmap, Hfi. done. }
  assert ((Do_arguments (mkCaller T fn')).2 (box T v, err0, sh) =
          Ret (mkReply T v err0)) as Hk.
  { etrans; [apply (ProccesWrapper_ret_reply T (box T v) err0 sh)|].
    unfold ProccesWrapper_reply.
    by rewrite (type_assert_box T v (box_concrete T v HT)). }
  rewrite Hk in Ht. unfold reply_of. by rewrite Ht.
Qed.

Lemma ProccesWrapper_coalesces_same_type_witness :
  ∃ ms1 ms2,
    run [2; 0; 1]
      (mkMsys warm_sys
         (goroutines (mkSingleflight "singleflight:product:1")
            (mkCaller TPtrProduct <$>
               [fetchProduct; fetchProduct; fetchProduct])))
      = Some ms1 ∧
    run [2; 1; 0] ms1 = Some ms2 ∧
    exec_count "singleflight:product:1" (events (shared ms2)) =
      exec_count "singleflight:product:1" (events warm_sys) + 1.
Proof.
  eexists _, _. split; [vm_compute; reflexivity|].
  split; [vm_compute; reflexivity|].
  eapply (ProccesWrapper_coalesces_same_type TPtrProduct
            (mkSingleflight "singleflight:product:1")
            [fetchProduct; fetchProduct; fetchProduct]
            warm_sys [2; 0; 1] [2; 1; 0]);
    [reflexivity | discriminate | vm_compute; reflexivity ..].
Defined.

(** ** A stampede on [getProductFromCache] *)

Section Stampede.

Variable json_Unmarshal : string → Product + error.

Lemma product_goroutines_start productID idxs :
  Forall (λ idx, idx ≠ 2%Z) idxs →
  product_goroutines json_Unmarshal productID idxs =
  start_threads (product_flight_key productID)
    ((λ _ : Z,
        (wrapperFn TPtrProduct (getProductFromCache_fn json_Unmarshal productID),
         getProductFromCache_cont)) <$> idxs).
Proof.
  intros Hall. unfold product_goroutines, start_threads.
  rewrite <- list_fmap_compose. f_equal. apply Forall_fmap_ext.
  eapply Forall_impl; [exact Hall|]. intros idx Hne. simpl.
  rewrite getProductFromCache_unfold.
  by apply Z.eqb_neq in Hne as ->.
Qed.

Lemma stampede_callers_return productID (idxs : list Z) (i : nat) fn k r :
  ((λ _ : Z,
      (wrapperFn TPtrProduct (getProductFromCache_fn json_Unmarshal productID),
       getProductFromCache_cont)) <$> idxs) !! i = Some (fn, k) →
  ∃ x, k r = Ret x.
Proof.
  rewrite list_lookup_fmap. destruct (idxs !! i); simpl; [|done].
  intros [= <- <-]. apply getProductFromCache_cont_Ret.
Qed.

Lemma getProductFromCache_cont_boxed v err sh :
  getProductFromCache_cont (Some (DPtrProduct v), err, sh) =
  Ret (getProductFromCache_ret (v, err)).
Proof. unfold getProductFromCache_cont, getProductFromCache_ret. by destruct err. Qed.

(** X8: callers of [getProductFromCache] for one product, none with
    index 2, that are all inside [Do] before the first completion: one
    GET reaches the store, and every caller returns what that one lookup
    gives.  Such a run exists for any number of callers. *)
Theorem getProductFromCache_stampede productID idxs s0 :
  idxs ≠ [] →
  Forall (λ idx, idx ≠ 2%Z) idxs →
  registry s0 !! product_flight_key productID = None →
  (∃ ms1 ms2,
     run (seq 0 (length idxs))
       (mkMsys s0 (product_goroutines json_Unmarshal productID idxs))
       = Some ms1 ∧
     exec_count (product_flight_key productID) (events (shared ms1)) =
       exec_count (product_flight_key productID) (events s0) ∧
     all_threads inside_Do ms1 = true ∧
     run (seq 0 (length idxs)) ms1 = Some ms2 ∧
     all_threads has_returned ms2 = true) ∧
  ∀ sched1 sched2 ms1 ms2,
    run sched1 (mkMsys s0 (product_goroutines json_Unmarshal productID idxs))
      = Some ms1 →
    exec_count (product_flight_key productID) (events (shared ms1)) =
      exec_count (product_flight_key productID) (events s0) →
    all_threads inside_Do ms1 = true →
    run sched2 ms1 = Some ms2 →
    all_threads has_returned ms2 = true →
    cmds (world (shared ms2)) =
      cmds (world s0) ++ [GET (product_cache_key productID)] ∧
    exec_count (product_flight_key productID) (events (shared ms2)) =
      exec_count (product_flight_key productID) (events s0) + 1 ∧
    ∀ i, i < length idxs →
      reply_of ms2 i =
        Some (getProductFromCache_ret
                (getProductFromCache_fn json_Unmarshal productID (world s0)).1).
Proof.
  intros Hne Hidx Hreg. rewrite (product_goroutines_start _ _ Hidx).
  set (callers := (λ _ : Z, _) <$> idxs).
  assert (callers ≠ []) as Hne'.
  { intros H. by apply fmap_nil_inv in H. }
  assert (length callers = length idxs) as Hlen by apply length_fmap.
  split.
  - destruct (round_robin_completes (product_flight_key productID) callers
                (stampede_callers_return productID idxs) s0 Hne' Hreg)
      as (ms1 & ms2 & H1 & Hc & Hin & H2 & Hret).
    rewrite Hlen in H1, H2. exists ms1, ms2.
    split_and!; [done | done | by apply all_threads_spec | done |].
    by apply returned_all_threads.
  - intros sched1 sched2 ms1 ms2 Hrun1 Hcnt1 Hin Hrun2 Hret.
    destruct (coalesced_once_world (product_flight_key productID) callers
                (stampede_callers_return productID idxs) s0 sched1 sched2
                ms1 ms2)
      as (Hcnt & j & fnj & kj & val & err & Hj & Hfn & Hall);
      [done | done | done | done | by apply all_threads_spec | done
      | by apply all_threads_returned |].
    unfold callers in Hj. rewrite list_lookup_fmap in Hj.
    destruct (idxs !! j) as [idx|]; simpl in Hj; [|done].
    injection Hj as <- <-. unfold wrapperFn in Hfn.
    pose proof (getProductFromCache_fn_world json_Unmarshal productID (world s0))
      as [_ Hcmds].
    destruct (getProductFromCache_fn json_Unmarshal productID (world s0))
      as [[v err0] w0].
    injection Hfn as <- <- <-. cbn [snd fst] in *.
    split_and!; [done..|].
    intros i Hi. destruct (lookup_lt_is_Some_2 idxs i Hi) as [idx' Hi'].
    destruct (Hall i
                (wrapperFn TPtrProduct
                   (getProductFromCache_fn json_Unmarshal productID))
                getProductFromCache_cont) as [sh Ht].
    { unfold callers. by rewrite list_lookup_fmap, Hi'. }
    rewrite getProductFromCache_cont_boxed in Ht.
    unfold reply_of. by rewrite Ht.
Qed.

End Stampede.

Lemma getProductFromCache_stampede_witness :
  ∃ ms1 ms2,
    run (seq 0 9)
      (mkMsys warm_sys
         (product_goroutines sample_Unmarshal 1 [0; 1; 3; 4; 5; 6; 7; 8; 9]%Z))
      = Some ms1 ∧
    run (seq 0 9) ms1 = Some ms2 ∧
    cmds (world (shared ms2)) = cmds (world warm_sys) ++ [GET (product_cache_key 1)].
Proof.
  eexists _, _. split; [vm_compute; reflexivity|].
  split; [vm_compute; reflexivity|].
  pose proof (getProductFromCache_stampede sample_Unmarshal 1%Z
                [0; 1; 3; 4; 5; 6; 7; 8; 9]%Z warm_sys) as [_ H].
  - discriminate.
  - repeat constructor; discriminate.
  - vm_compute. reflexivity.
  - eapply (H (seq 0 9) (seq 0 9)); vm_compute; reflexivity.
Defined.

(** ** The benchmark with singleflight *)

Lemma benchmark_goroutines_start n :
  benchmark_goroutines n =
  start_threads "singleflight:product:1"
    (replicate n (wrapperFn TPtrProduct fetchProduct,
                  ProccesWrapper_ret TPtrProduct)).
Proof.
  unfold benchmark_goroutines, start_threads. by rewrite fmap_replicate.
Qed.

Lemma benchmark_callers_return n (i : nat) fn k r :
  replicate n (wrapperFn TPtrProduct fetchProduct,
               ProccesWrapper_ret TPtrProduct) !! i = Some (fn, k) →
  ∃ x, k r = Ret x.
Proof.
  intros [[= -> ->] _]%lookup_replicate. apply ProccesWrapper_ret_is_Ret.
Qed.

(** X9: the goroutines of [BenchmarkWithSingleflight], all inside [Do]
    before the first completion: [fetchProduct] runs once and every one
    of them gets its product and a nil error.  Such a run exists for any
    number of goroutines. *)
Theorem BenchmarkWithSingleflight_one_fetch n s0 :
  0 < n →
  registry s0 !! "singleflight:product:1" = None →
  (∃ ms1 ms2,
     run (seq 0 n) (mkMsys s0 (benchmark_goroutines n)) = Some ms1 ∧
     exec_count "singleflight:product:1" (events (shared ms1)) =
       exec_count "singleflight:product:1" (events s0) ∧
     all_threads inside_Do ms1 = true ∧
     run (seq 0 n) ms1 = Some ms2 ∧
     all_threads has_returned ms2 = true) ∧
  ∀ sched1 sched2 ms1 ms2,
    run sched1 (mkMsys s0 (benchmark_goroutines n)) = Some ms1 →
    exec_count "singleflight:product:1" (events (shared ms1)) =
      exec_count "singleflight:product:1" (events s0) →
    all_threads inside_Do ms1 = true →
    run sched2 ms1 = Some ms2 →
    all_threads has_returned ms2 = true →
    exec_count "singleflight:product:1" (events (shared ms2)) =
      exec_count "singleflight:product:1" (events s0) + 1 ∧
    world (shared ms2) = world s0 ∧
    ∀ i, i < n →
      reply_of ms2 i = Some (Some (mkProduct 1 "Expensive Product"), None).
Proof.
  intros Hn Hreg. rewrite benchmark_goroutines_start.
  set (callers := replicate n _).
  assert (callers ≠ []) as Hne.
  { unfold callers. destruct n; [lia|done]. }
  assert (length callers = n) as Hlen by apply length_replicate.
  split.
  - destruct (round_robin_completes "singleflight:product:1" callers
                (benchmark_callers_return n) s0 Hne Hreg)
      as (ms1 & ms2 & H1 & Hc & Hin & H2 & Hret).
    rewrite Hlen in H1, H2. exists ms1, ms2.
    split_and!; [done | done | by apply all_threads_spec | done |].
    by apply returned_all_threads.
  - intros sched1 sched2 ms1 ms2 Hrun1 Hcnt1 Hin Hrun2 Hret.
    destruct (coalesced_once_world "singleflight:product:1" callers
                (benchmark_callers_return n) s0 sched1 sched2 ms1 ms2)
      as (Hcnt & j & fnj & kj & val & err & Hj & Hfn & Hall);
      [done | done | done | done | by apply all_threads_spec | done
      | by apply all_threads_returned |].
    apply lookup_replicate in Hj as [[= -> ->] Hjn].
    unfold wrapperFn, fetchProduct in Hfn. injection Hfn as <- <- Hw.
    split_and!; [done..|].
    intros i Hi.
    destruct (Hall i (wrapperFn TPtrProduct fetchProduct)
                (ProccesWrapper_ret TPtrProduct)) as [sh Ht].
    { by apply lookup_replicate. }
    change (denote TPtrProduct) with (option Product) in Ht.
    unfold reply_of. by rewrite Ht.
Qed.

Lemma BenchmarkWithSingleflight_one_fetch_witness :
  ∃ ms1 ms2,
    run (seq 0 4) (mkMsys empty_sys (benchmark_goroutines 4)) = Some ms1 ∧
    run [0; 3; 2; 1] ms1 = Some ms2 ∧
    reply_of ms2 3 = Some (Some (mkProduct 1 "Expensive Product"), None).
Proof.
  eexists _, _. split; [vm_compute; reflexivity|].
  split; [vm_compute; reflexivity|].
  pose proof (BenchmarkWithSingleflight_one_fetch 4 empty_sys) as [_ H];
    [lia | vm_compute; reflexivity |].
  eapply (H (seq 0 4) [0; 3; 2; 1]); [vm_compute; reflexivity ..| lia].
Defined.

(** ** [AddToBankAccountWithMutex] over the lease store *)

Lemma existsb_false_Forall {A} (f : A → bool) (l : list A) :
  existsb f l = false → Forall (λ x, f x = false) l.
Proof.
  induction l as [|x l IH]; [done|]. simpl.
  intros [Hx Hl]%orb_false_iff. constructor; auto.
Qed.

Lemma filter_Forall_id {A} (P : A → Prop) `{!∀ x, Decision (P x)} (l : list A) :
  Forall P l → filter P l = l.
Proof.
  induction 1 as [|x l Hx Hl IH]; [done|].
  rewrite filter_cons_True by done. by rewrite IH.
Qed.

(** X10: with the mutex of the lease store, [AddToBankAccountWithMutex]
    returns the contention error and leaves the store alone when an
    unexpired lease exists for the account; otherwise it returns nil and,
    for a lease that lasts, leaves the store exactly as it found it: the
    lease it took is gone.  A lease of no duration has expired by the time
    of the deferred [Unlock] and stays behind. *)
Theorem AddToBankAccountWithMutex_over_leases ownerToken ttl accountId amount st :
  AddToBankAccountWithMutex accountId amount (lease_redsync ownerToken ttl) st =
    if existsb (live ("add-account:{" +:+ accountId +:+ "}") (now st)) (leases st)
    then (Some LockContention, st)
    else if decide (ttl = 0)
         then (None,
               mkStore (mkLease ("add-account:{" +:+ accountId +:+ "}")
                                ownerToken (now st + ttl) :: leases st)
                       (now st))
         else (None, st).
Proof.
  unfold AddToBankAccountWithMutex. cbn [lease_redsync NewMutex lease_mutex Lock Unlock].
  set (name := "add-account:{" +:+ accountId +:+ "}").
  unfold TryCreate. destruct (existsb (live name (now st)) (leases st)) eqn:E; [done|].
  unfold DeleteIfOwner. cbn [leases now existsb].
  pose proof (existsb_false_Forall _ _ E) as Hall.
  assert (Forall (λ l, owned_by name ownerToken (now st) l = false) (leases st))
    as Hown.
  { eapply Forall_impl; [exact Hall|]. intros l Hl. unfold owned_by.
    by rewrite Hl. }
  assert (existsb (owned_by name ownerToken (now st)) (leases st) = false) as Hex.
  { apply not_true_is_false. intros [l [Hin Hl]]%existsb_exists.
    rewrite Forall_forall in Hown. apply list_elem_of_In in Hin.
    rewrite (Hown l Hin) in Hl. done. }
  assert (owned_by name ownerToken (now st) (mkLease name ownerToken (now st + ttl))
          = bool_decide (0 < ttl)) as Hnew.
  { unfold owned_by, live, unexpired. cbn [lease_name expiry owner_token].
    rewrite (bool_decide_true (name = name)) by done.
    rewrite (bool_decide_true (ownerToken = ownerToken)) by done.
    rewrite andb_true_l, andb_true_r. apply bool_decide_ext. lia. }
  rewrite Hnew, Hex. destruct (decide (ttl = 0)) as [->|Hne].
  - rewrite bool_decide_false by lia. done.
  - rewrite bool_decide_true by lia. simpl.
    rewrite filter_cons_False by (rewrite Hnew, bool_decide_true by lia; done).
    rewrite (filter_Forall_id _ _ Hown). by destruct st.
Qed.

(** ** [AddToBankAccount] *)

(** [AddToBankAccount] in closed form. *)
Lemma AddToBankAccount_unfold accountId amount rdb :
  AddToBankAccount accountId amount rdb =
    match outage rdb with
    | Some e => (Some e, rdb)
    | None =>
        if present (account_key accountId) rdb then (None, rdb)
        else (None,
              mkRedis (delete (account_key accountId) (entries rdb))
                      (clock rdb) None)
    end.
Proof.
  unfold AddToBankAccount, redis_Get_Err, redis_Set_Err, redis_Del.
  fold (account_key accountId).
  destruct (outage rdb) as [e|] eqn:Eo.
  - by destruct (bool_decide (e ≠ redis_Nil)).
  - destruct (present (account_key accountId) rdb); [done|].
    rewrite bool_decide_false by (intros H; by apply H).
    cbn [outage entries clock]. by rewrite delete_insert_eq.
Qed.


(** A caller alone goes through its steps to what the function returns. *)
Lemma ba_alone_AddToBankAccount accountId amount rdb :
  ba_alone accountId rdb =
  (BA_Returned (AddToBankAccount accountId amount rdb).1,
   (AddToBankAccount accountId amount rdb).2).
Proof.
  rewrite AddToBankAccount_unfold. unfold ba_alone.
  remember (account_key accountId) as key eqn:Hkey.
  assert (Hstep : ∀ pc r, ba_step accountId pc r =
    match pc with
    | BA_Get =>
        match redis_Get_Err key r with
        | Some e =>
            if decide (e ≠ redis_Nil) then Some (BA_Returned (Some e), r)
            else Some (BA_Set, r)
        | None => Some (BA_Returned None, r)
        end
    | BA_Set =>
        match redis_Set_Err key accountId (time_Minute * 10) r with
        | (Some e, r) => Some (BA_Returned (Some e), r)
        | (None, r) => Some (BA_Logic, r)
        end
    | BA_Logic => Some (BA_Returned None, redis_Del key r)
    | BA_Returned _ => None
    end).
  { intros pc r. unfold ba_step. by rewrite <- Hkey. }
  cbv beta iota zeta. rewrite (Hstep BA_Get rdb). unfold redis_Get_Err.
  destruct (outage rdb) as [e|] eqn:Eo.
  - destruct (decide (e ≠ redis_Nil)); cbn [default from_option id]; cbv beta iota zeta.
    + rewrite (Hstep (BA_Returned _)). cbn [default from_option id]. cbv beta iota zeta.
      by rewrite (Hstep (BA_Returned _)).
    + rewrite (Hstep BA_Set rdb). unfold redis_Set_Err. rewrite Eo.
      cbn [default from_option id]. cbv beta iota zeta. by rewrite (Hstep (BA_Returned _)).
  - destruct (present key rdb); cbn [default from_option id]; cbv beta iota zeta.
    + rewrite (Hstep (BA_Returned _)). cbn [default from_option id]. cbv beta iota zeta.
      by rewrite (Hstep (BA_Returned _)).
    + rewrite decide_False by (intros H; by apply H).
      cbn [default from_option id]. cbv beta iota zeta.
      rewrite (Hstep BA_Set rdb). unfold redis_Set_Err. rewrite Eo.
      cbn [default from_option id]. cbv beta iota zeta. rewrite (Hstep BA_Logic).
      unfold redis_Del. cbn [default from_option id outage entries clock].
      by rewrite delete_insert_eq.
Qed.

Lemma ba_step_Get_free accountId rdb :
  outage rdb = None →
  present (account_key accountId) rdb = false →
  ba_step accountId BA_Get rdb = Some (BA_Set, rdb).
Proof.
  intros Ho Hp. unfold ba_step, redis_Get_Err. rewrite Ho, Hp.
  by rewrite decide_False by (intros H; by apply H).
Qed.

Lemma ba_step_Set accountId rdb :
  outage rdb = None →
  ba_step accountId BA_Set rdb =
    Some (BA_Logic,
          (redis_Set_Err (account_key accountId) accountId (time_Minute * 10)
             rdb).2).
Proof. intros Ho. unfold ba_step, redis_Set_Err. by rewrite Ho. Qed.

Lemma redis_Set_Err_state key val ttl rdb :
  outage rdb = None →
  outage (redis_Set_Err key val ttl rdb).2 = None ∧
  clock (redis_Set_Err key val ttl rdb).2 = clock rdb ∧
  entries (redis_Set_Err key val ttl rdb).2 !! key =
    Some (mkEntry val (if decide (ttl = 0) then None else Some (clock rdb + ttl))).
Proof.
  intros Ho. unfold redis_Set_Err. rewrite Ho. cbn [snd outage clock entries].
  by rewrite lookup_insert_eq.
Qed.

Lemma redis_Del_absent key rdb :
  outage rdb = None → present key (redis_Del key rdb) = false.
Proof.
  intros Ho. unfold redis_Del, present. rewrite Ho. cbn [entries].
  by rewrite lookup_delete_eq.
Qed.

(** X12: the lock of [AddToBankAccount] does not exclude.  Two callers
    for one account that both read before either writes are both inside
    the logic at once; and when the first returns, its deferred [Del]
    removes the key while the second is still inside, so that the account
    looks free again. *)
Theorem AddToBankAccount_both_inside accountId rdb :
  outage rdb = None →
  present (account_key accountId) rdb = false →
  ∃ s s',
    ba_run [BaCaller 0; BaCaller 1; BaCaller 0; BaCaller 1]
      (mkBaSys rdb [(accountId, BA_Get); (accountId, BA_Get)]) = Some s ∧
    ba_callers s = [(accountId, BA_Logic); (accountId, BA_Logic)] ∧
    ba_run [BaCaller 0] s = Some s' ∧
    ba_callers s' = [(accountId, BA_Returned None); (accountId, BA_Logic)] ∧
    present (account_key accountId) (ba_redis s') = false.
Proof.
  intros Ho Hp.
  set (set_key := λ r, (redis_Set_Err (account_key accountId) accountId
                          (time_Minute * 10) r).2).
  destruct (redis_Set_Err_state (account_key accountId) accountId
              (time_Minute * 10) rdb Ho) as (Ho1 & _ & _).
  destruct (redis_Set_Err_state (account_key accountId) accountId
              (time_Minute * 10) _ Ho1) as (Ho2 & _ & _).
  exists (mkBaSys (set_key (set_key rdb))
            [(accountId, BA_Logic); (accountId, BA_Logic)]),
         (mkBaSys (redis_Del (account_key accountId) (set_key (set_key rdb)))
            [(accountId, BA_Returned None); (accountId, BA_Logic)]).
  split_and!; [| done | done | done |].
  - cbn [ba_run ba_move ba_callers ba_redis lookup list_lookup].
    rewrite (ba_step_Get_free _ _ Ho Hp).
    cbn [ba_run ba_move ba_callers ba_redis lookup list_lookup insert list_insert].
    rewrite (ba_step_Get_free _ _ Ho Hp).
    cbn [ba_run ba_move ba_callers ba_redis lookup list_lookup insert list_insert].
    rewrite (ba_step_Set _ _ Ho).
    cbn [ba_run ba_move ba_callers ba_redis lookup list_lookup insert list_insert].
    rewrite (ba_step_Set _ _ Ho1). done.
  - cbn [ba_redis]. by apply redis_Del_absent.
Qed.

Lemma AddToBankAccount_both_inside_witness :
  ∃ s,
    ba_run [BaCaller 0; BaCaller 1; BaCaller 0; BaCaller 1]
      (mkBaSys idle_redis [("42", BA_Get); ("42", BA_Get)]) = Some s ∧
    ba_callers s = [("42", BA_Logic); ("42", BA_Logic)].
Proof.
  destruct (AddToBankAccount_both_inside "42" idle_redis)
    as (s & s' & H1 & H2 & _); [reflexivity | reflexivity |].
  by exists s.
Defined.

Lemma ba_run_ticks n s :
  ba_run (replicate n BaTick) s =
  Some (mkBaSys (mkRedis (entries (ba_redis s)) (clock (ba_redis s) + n)
                         (outage (ba_redis s)))
                (ba_callers s)).
Proof.
  revert s. induction n as [|n IH]; intros [[en cl o] cs].
  - simpl. by rewrite Nat.add_0_r.
  - cbn [replicate ba_run ba_move]. rewrite IH. cbn [ba_redis entries clock outage
      ba_callers]. do 3 f_equal. lia.
Qed.

(** X13: the key a caller has set expires ten minutes later if it is not
    deleted.  While the caller stays inside the logic, other callers see
    the key for the first 600 seconds and not from then on. *)
Theorem AddToBankAccount_key_expires accountId rdb n :
  outage rdb = None →
  present (account_key accountId) rdb = false →
  ∃ s,
    ba_run ([BaCaller 0; BaCaller 0] ++ replicate n BaTick)
      (mkBaSys rdb [(accountId, BA_Get)]) = Some s ∧
    ba_callers s = [(accountId, BA_Logic)] ∧
    present (account_key accountId) (ba_redis s) = bool_decide (n < 600) ∧
    ∀ amount,
      (AddToBankAccount accountId amount (ba_redis s)).1 = None ∧
      (n < 600 → (AddToBankAccount accountId amount (ba_redis s)).2 = ba_redis s).
Proof.
  intros Ho Hp.
  destruct (redis_Set_Err_state (account_key accountId) accountId
              (time_Minute * 10) rdb Ho) as (Ho1 & Hc1 & He1).
  set (rdb1 := (redis_Set_Err (account_key accountId) accountId
                  (time_Minute * 10) rdb).2) in *.
  exists (mkBaSys (mkRedis (entries rdb1) (clock rdb1 + n) (outage rdb1))
            [(accountId, BA_Logic)]).
  assert (present (account_key accountId)
            (mkRedis (entries rdb1) (clock rdb1 + n) (outage rdb1))
          = bool_decide (n < 600)) as Hpres.
  { unfold present. cbn [entries clock]. rewrite He1, Hc1.
    unfold alive. cbn [entry_deadline].
    rewrite decide_False by (unfold time_Minute; lia).
    apply bool_decide_ext. unfold time_Minute. lia. }
  split_and!; [| done | done |].
  - cbn [app ba_run ba_move ba_callers ba_redis lookup list_lookup].
    rewrite (ba_step_Get_free _ _ Ho Hp).
    cbn [ba_run ba_move ba_callers ba_redis lookup list_lookup insert list_insert].
    rewrite (ba_step_Set _ _ Ho). cbn [insert list_insert].
    by rewrite ba_run_ticks.
  - intros amount. rewrite AddToBankAccount_unfold. cbn [ba_redis outage].
    rewrite Hpres, Ho1. split.
    + by destruct (bool_decide (n < 600)).
    + intros Hn. by rewrite bool_decide_true.
Qed.

Lemma AddToBankAccount_key_expires_witness :
  ∃ s,
    ba_run ([BaCaller 0; BaCaller 0] ++ replicate 600 BaTick)
      (mkBaSys idle_redis [("42", BA_Get)]) = Some s ∧
    ba_callers s = [("42", BA_Logic)] ∧
    present (account_key "42") (ba_redis s) = false.
Proof.
  destruct (AddToBankAccount_key_expires "42" idle_redis 600)
    as (s & H1 & H2 & H3 & _); [reflexivity | reflexivity |].
  exists s. split_and!; [done..|]. rewrite H3. reflexivity.
Defined.

(** ** [AddToBankAccountWithMutex] interleaved *)

(** A caller alone goes through [Lock] and the deferred [Unlock] to what
    the function returns. *)
Lemma mx_step_alone accountId amount token ttl st :
  match mx_step (mkMxCaller accountId token ttl MX_Lock) st with
  | Some (MX_Logic until, st1) =>
      (mx_step (mkMxCaller accountId token ttl (MX_Logic until)) st1)
  | other => other
  end =
  Some (MX_Returned
          (AddToBankAccountWithMutex accountId amount (lease_redsync token ttl) st).1,
        (AddToBankAccountWithMutex accountId amount (lease_redsync token ttl) st).2).
Proof.
  unfold mx_step, AddToBankAccountWithMutex, mx_name.
  cbn [mx_at mx_token mx_ttl mx_account].
  destruct (Lock _ st) as [[e|] st1]; [done|].
  cbn [mx_at]. by destruct (Unlock _ st1) as [[ok uerr] st2].
Qed.

Lemma mx_tokens_insert (cs : list mx_caller) i c pc :
  cs !! i = Some c →
  mx_token <$> <[i := mx_moved c pc]> cs = mx_token <$> cs.
Proof.
  intros Hi. rewrite list_fmap_insert. cbn [mx_moved mx_token].
  apply list_insert_id. by rewrite list_lookup_fmap, Hi.
Qed.

Lemma elem_of_filter_keep {A} (P : A → Prop) `{!∀ x, Decision (P x)}
    (l : list A) x :
  x ∈ l → P x → x ∈ filter P l.
Proof. intros. by apply list_elem_of_filter. Qed.

Lemma mx_inv_move l s s' :
  mx_inv s → mx_move l s = Some s' → mx_inv s'.
Proof.
  intros (Hnd & Hcnt & Hh) Hm. destruct l as [i| |]; cbn [mx_move] in Hm.
  - destruct (mx_callers s !! i) as [c|] eqn:Hi; [|done].
    unfold mx_step in Hm. cbn [lease_redsync NewMutex lease_mutex Lock Unlock] in Hm.
    destruct (mx_at c) as [|until|err] eqn:Hat; [| |done].
    + (* Lock *)
      pose proof (λ name, lease_step_live_count name
                   (OpLock (mx_name c) (mx_token c) (mx_ttl c)) _ (Hcnt name))
        as Hcnt'.
      cbn [lease_step] in Hcnt'. unfold TryCreate in *.
      destruct (existsb _ _) eqn:E; simplify_eq.
      * split_and!; cbn [mx_callers mx_store] in *;
          [by rewrite mx_tokens_insert | done |].
        intros j cj u Hj Hatj Hu. cbn [mx_callers mx_store] in *.
        destruct (decide (i = j)) as [->|Hne].
        -- rewrite list_lookup_insert_eq in Hj by (by eapply lookup_lt_Some).
           injection Hj as <-. done.
        -- rewrite list_lookup_insert_ne in Hj by done. by eapply Hh.
      * split_and!; cbn [mx_callers mx_store] in *;
          [by rewrite mx_tokens_insert | done |].
        intros j cj u Hj Hatj Hu. cbn [mx_callers mx_store leases now] in *.
        destruct (decide (i = j)) as [->|Hne].
        -- rewrite list_lookup_insert_eq in Hj by (by eapply lookup_lt_Some).
           injection Hj as <-. cbn [mx_moved mx_at] in Hatj.
           injection Hatj as <-. left.
        -- rewrite list_lookup_insert_ne in Hj by done. right. by eapply Hh.
    + (* Unlock *)
      pose proof (λ name, lease_step_live_count name
                   (OpUnlock (mx_name c) (mx_token c)) _ (Hcnt name)) as Hcnt'.
      cbn [lease_step] in Hcnt'. unfold DeleteIfOwner in *.
      assert (Hother : ∀ j cj u,
                i ≠ j → mx_callers s !! j = Some cj →
                owned_by (mx_name c) (mx_token c) (now (mx_store s))
                  (mkLease (mx_name cj) (mx_token cj) u) = false).
      { intros j cj u Hne Hj. unfold owned_by. cbn [owner_token].
        rewrite (bool_decide_false (mx_token cj = mx_token c)).
        - apply andb_false_r.
        - intros Heq. apply Hne.
          eapply (NoDup_lookup (mx_token <$> mx_callers s)); [done|..].
          + by rewrite list_lookup_fmap, Hi.
          + rewrite list_lookup_fmap, Hj. simpl. by rewrite Heq. }
      destruct (existsb _ _) eqn:E; simplify_eq;
        (split_and!; cbn [mx_callers mx_store] in *;
          [by rewrite mx_tokens_insert | done |]);
        intros j cj u Hj Hatj Hu; cbn [mx_callers mx_store leases now] in *;
        (destruct (decide (i = j)) as [->|Hne];
          [rewrite list_lookup_insert_eq in Hj by (by eapply lookup_lt_Some);
           by injection Hj as <-
          |rewrite list_lookup_insert_ne in Hj by done]).
      * apply elem_of_filter_keep; [by eapply Hh|]. by eapply Hother.
      * by eapply Hh.
  - injection Hm as <-. split_and!; cbn [mx_callers mx_store]; [done| |].
    + intros name. by apply (lease_step_live_count name OpTick).
    + intros j cj u Hj Hatj Hu. cbn [mx_callers mx_store lease_step leases now] in *.
      eapply Hh; [done..|lia].
  - injection Hm as <-. split_and!; cbn [mx_callers mx_store]; [done| |].
    + intros name. by apply (lease_step_live_count name OpEvict).
    + intros j cj u Hj Hatj Hu. cbn [mx_callers mx_store lease_step leases now] in *.
      apply elem_of_filter_keep; [by eapply Hh|].
      unfold unexpired. cbn [expiry]. by apply bool_decide_eq_true.
Qed.

Lemma mx_inv_run ls : ∀ s s', mx_inv s → mx_run ls s = Some s' → mx_inv s'.
Proof.
  induction ls as [|l ls IH]; intros s s' Hinv Hrun; simpl in Hrun.
  - by simplify_eq.
  - destruct (mx_move l s) as [s1|] eqn:Hm; [|done].
    eapply IH; [|done]. by eapply mx_inv_move.
Qed.

(** X14: callers of [AddToBankAccountWithMutex] with distinct owner
    tokens, over the lease store: whatever the interleaving, the passing
    of time and the evictions, when two of them are inside the logic for
    one account, the lease of at least one of them has expired. *)
Theorem AddToBankAccountWithMutex_excludes callers st0 ls s i j ci cj ui uj :
  NoDup (mx_token <$> callers) →
  Forall (λ c, mx_at c = MX_Lock) callers →
  (∀ name, live_count name st0 ≤ 1) →
  mx_run ls (mkMxSys st0 callers) = Some s →
  i ≠ j →
  mx_callers s !! i = Some ci →
  mx_callers s !! j = Some cj →
  mx_account ci = mx_account cj →
  mx_at ci = MX_Logic ui →
  mx_at cj = MX_Logic uj →
  ui ≤ now (mx_store s) ∨ uj ≤ now (mx_store s).
Proof.
  intros Hnd Hall Hcnt Hrun Hne Hi Hj Hacc Hati Hatj.
  destruct (decide (now (mx_store s) < ui)) as [Hui|]; [|left; lia].
  destruct (decide (now (mx_store s) < uj)) as [Huj|]; [|right; lia].
  exfalso. apply Hne.
  assert (mx_inv s) as (Hnd' & Hcnt' & Hh).
  { eapply mx_inv_run; [|done]. split_and!; [done..|].
    intros k c u Hk Hat _. cbn [mx_callers] in Hk.
    rewrite Forall_lookup in Hall. rewrite (Hall k c Hk) in Hat. done. }
  pose proof (Hh i ci ui Hi Hati Hui) as Hli.
  pose proof (Hh j cj uj Hj Hatj Huj) as Hlj.
  assert (mx_name ci = mx_name cj) as Hname by (unfold mx_name; by rewrite Hacc).
  assert (mkLease (mx_name ci) (mx_token ci) ui =
          mkLease (mx_name cj) (mx_token cj) uj) as Heq.
  { eapply (live_count_unique (mx_name ci)); [apply Hcnt' | done | done | |].
    - unfold live, unexpired. cbn [lease_name expiry].
      by rewrite !bool_decide_true.
    - unfold live, unexpired. cbn [lease_name expiry].
      rewrite bool_decide_true by done. by rewrite bool_decide_true. }
  injection Heq as _ Htok _.
  eapply (NoDup_lookup (mx_token <$> mx_callers s)); [done|..].
  - by rewrite list_lookup_fmap, Hi.
  - rewrite list_lookup_fmap, Hj. simpl. by rewrite Htok.
Qed.

Lemma AddToBankAccountWithMutex_excludes_witness :
  ∃ s,
    mx_run ([MxCaller 0] ++ replicate 8 MxTick ++ [MxCaller 1])
      (mkMxSys empty_store
         [mkMxCaller "42" "A" 8 MX_Lock; mkMxCaller "42" "B" 8 MX_Lock])
      = Some s ∧
    mx_at <$> mx_callers s = [MX_Logic 8; MX_Logic 16] ∧
    (8 ≤ now (mx_store s) ∨ 16 ≤ now (mx_store s)).
Proof.
  eexists. split; [vm_compute; reflexivity|]. split; [vm_compute; reflexivity|].
  apply (AddToBankAccountWithMutex_excludes
           [mkMxCaller "42" "A" 8 MX_Lock; mkMxCaller "42" "B" 8 MX_Lock]
           empty_store ([MxCaller 0] ++ replicate 8 MxTick ++ [MxCaller 1])
           _ 0 1
           (mkMxCaller "42" "A" 8 (MX_Logic 8))
           (mkMxCaller "42" "B" 8 (MX_Logic 16)) 8 16).
  - apply (bool_decide_unpack _). vm_compute. exact I.
  - repeat constructor.
  - intros name. vm_compute. lia.
  - vm_compute. reflexivity.
  - lia.
  - vm_compute. reflexivity.
  - vm_compute. reflexivity.
  - reflexivity.
  - reflexivity.
  - reflexivity.
Defined.
